(** * Gamev2: voxel world, mesher and chunk streamer

    A shallow embedding of

    - [VoxelWorld] (constructor, [loadChunk], [loadVoxel], [addBlockToTree],
      [loopChunk], [findFaces]),
    - the chunk streamer ([deleteIfOutRadius], [addInRadius],
      [chunkRenderLoop]),
    - the first-generation terrain code ([getElevation], [generateWorld]),

    together with the properties the specification states about them.

    Conventions.  Integer-valued quantities of the program (voxel and chunk
    coordinates, loop counters, vertex indices) are [Z].  Every other
    JavaScript [number] (texture ratios, noise values, elevations, camera
    positions) lives in an abstract carrier with the operations the program
    applies to it, see [JsNumber]; nothing is assumed about these operations,
    so the statements hold for IEEE doubles as well as for the exact
    instance [QNum] used to evaluate the code on concrete inputs. *)

From Stdlib Require Import ZArith QArith Qround Qfield Lqa List Lia.
From stdpp Require Import base option list gmap.

Local Open Scope Z_scope.

(** ** JavaScript numbers *)

Class JsNumber (num : Type) := {
  of_Z : Z -> num;              (* an integer literal or integer-valued number *)
  nan : num;                    (* ToNumber(undefined) *)
  nadd : num -> num -> num;     (* a + b *)
  nsub : num -> num -> num;     (* a - b *)
  nmul : num -> num -> num;     (* a * b *)
  ndiv : num -> num -> num;     (* a / b *)
  nround : num -> num;          (* Math.round(a) *)
  nlt : num -> num -> bool;     (* a < b *)
  nge : num -> num -> bool;     (* a >= b *)
}.

(** The exact instance: finite numbers are rationals, [None] stands for the
    values that are not finite numbers (NaN, and the result of dividing by
    zero).  [Math.round] rounds half up. *)
Module QNum.

Definition t : Type := option Q.

Definition lift2 (f : Q -> Q -> Q) (a b : t) : t :=
  match a, b with
  | Some p, Some q => Some (Qred (f p q))
  | _, _ => None
  end.

Definition div (a b : t) : t :=
  match a, b with
  | Some p, Some q => if Qeq_bool q 0 then None else Some (Qred (Qdiv p q))
  | _, _ => None
  end.

Definition round (a : t) : t :=
  match a with
  | Some p => Some (inject_Z (Qfloor (Qplus p (1 # 2))))
  | None => None
  end.

Definition lt (a b : t) : bool :=
  match a, b with
  | Some p, Some q => negb (Qle_bool q p)
  | _, _ => false
  end.

Definition ge (a b : t) : bool :=
  match a, b with
  | Some p, Some q => Qle_bool q p
  | _, _ => false
  end.

#[global] Instance number : JsNumber t := {|
  of_Z := fun n => Some (inject_Z n);
  nan := None;
  nadd := lift2 Qplus;
  nsub := lift2 Qminus;
  nmul := lift2 Qmult;
  ndiv := div;
  nround := round;
  nlt := lt;
  nge := ge;
|}.

End QNum.

(** ** SpatialIndex *)

(** Modelled from the spec: the [Octree] class of [lib/quadrant] is not part
    of the sources.  The model follows section 4.2: an octree is built over a
    fixed axis-aligned box; [insert] is a no-op for an item that lies fully
    outside that box; a node whose item count exceeds the capacity splits
    into octants, items that fit no single octant stay with the parent; a
    range query returns the stored items that intersect the query box. *)
Module Octree.

Record AABB := mkAABB {
  x : Z; y : Z; z : Z;
  width : Z; height : Z; depth : Z;
}.

#[warnings="-register-all"]
Inductive Node :=
| mkNode (box : AABB) (items : list AABB) (children : list Node).

Definition node_box (n : Node) : AABB :=
  match n with mkNode b _ _ => b end.

Definition node_items (n : Node) : list AABB :=
  match n with mkNode _ its _ => its end.

Definition node_children (n : Node) : list Node :=
  match n with mkNode _ _ cs => cs end.

(** Modelled from the spec: two boxes intersect when they share interior
    volume. *)
Definition intersects (a b : AABB) : bool :=
  (x a <? x b + width b) && (x b <? x a + width a) &&
  (y a <? y b + height b) && (y b <? y a + height a) &&
  (z a <? z b + depth b) && (z b <? z a + depth a).

(** Modelled from the spec: [it] lies within [b]. *)
Definition contains (b it : AABB) : bool :=
  (x b <=? x it) && (x it + width it <=? x b + width b) &&
  (y b <=? y it) && (y it + height it <=? y b + height b) &&
  (z b <=? z it) && (z it + depth it <=? z b + depth b).

Definition nonempty (b : AABB) : bool :=
  (0 <? width b) && (0 <? height b) && (0 <? depth b).

(** Modelled from the spec: the octants of a box.  Each axis is cut at its
    (floored) midpoint; the octants without volume are dropped, hence "up to
    8". *)
Definition halves (o w : Z) : list (Z * Z) :=
  [(o, w / 2); (o + w / 2, w - w / 2)].

Definition octants (b : AABB) : list AABB :=
  filter (fun o => nonempty o = true)
    (xs ← halves (x b) (width b);
     ys ← halves (y b) (height b);
     zs ← halves (z b) (depth b);
     [mkAABB xs.1 ys.1 zs.1 xs.2 ys.2 zs.2]).

(** The first box of [boxes] that contains [it], if any. *)
Fixpoint octant_of (boxes : list AABB) (it : AABB) : option AABB :=
  match boxes with
  | [] => None
  | b :: bs => if contains b it then Some b else octant_of bs it
  end.

Definition AABB_eqb (a b : AABB) : bool :=
  (x a =? x b) && (y a =? y b) && (z a =? z b) &&
  (width a =? width b) && (height a =? height b) && (depth a =? depth b).

Definition assigned_to (boxes : list AABB) (o : option AABB) (it : AABB) : bool :=
  match octant_of boxes it, o with
  | Some b, Some b' => AABB_eqb b b'
  | None, None => true
  | _, _ => false
  end.

(** Modelled from the spec: splitting a leaf.  One child per octant, each
    item moves to the octant that contains it and stays here when it
    straddles a cut. *)
Definition split (b : AABB) (its : list AABB) : Node :=
  let boxes := octants b in
  mkNode b
    (filter (fun it => assigned_to boxes None it = true) its)
    (map (fun o => mkNode o (filter (fun it => assigned_to boxes (Some o) it = true) its) [])
         boxes).

(** Modelled from the spec: insertion below the root.  A leaf takes the item
    and splits once it holds more than [capacity]; an inner node hands the
    item to the first child whose box contains it and keeps it otherwise.
    [into_first] applies [ins] to the first node of [l] that passes [test]. *)
Fixpoint into_first (test : Node -> bool) (ins : Node -> Node) (l : list Node)
  : list Node :=
  match l with
  | [] => []
  | c :: l' => if test c then ins c :: l' else c :: into_first test ins l'
  end.

Fixpoint insert_node (capacity : nat) (it : AABB) (n : Node) : Node :=
  match n with
  | mkNode b its cs =>
      match cs with
      | [] =>
          let its' := its ++ [it] in
          if (capacity <? length its')%nat then split b its' else mkNode b its' []
      | _ =>
          if existsb (fun c => contains (node_box c) it) cs
          then mkNode b its
                 (into_first (fun c => contains (node_box c) it)
                             (insert_node capacity it) cs)
          else mkNode b (its ++ [it]) cs
      end
  end.

(** Modelled from the spec: [new Octree({width, height, depth, x, y, z})]. *)
Definition new (bounds : AABB) : Node := mkNode bounds [] [].

(** Modelled from the spec: [tree.insert(item)], total, and a no-op for an
    item fully outside the tree's box. *)
Definition insert (capacity : nat) (t : Node) (it : AABB) : Node :=
  if intersects (node_box t) it then insert_node capacity it t else t.

(** Modelled from the spec: every item stored in the tree. *)
Fixpoint all_items (n : Node) : list AABB :=
  match n with
  | mkNode _ its cs => its ++ flat_map all_items cs
  end.

(** Modelled from the spec: the range query, all stored items that
    intersect the query box. *)
Fixpoint query (n : Node) (q : AABB) : list AABB :=
  match n with
  | mkNode b its cs =>
      filter (fun it => intersects it q = true) its ++ flat_map (fun c => query c q) cs
  end.

End Octree.

(** ** Data of the voxel world *)

(** [XYZ] of [./seed]: a position, as the object literals of the code build
    it. *)
Record XYZ := mkXYZ { xyz_x : Z; xyz_y : Z; xyz_z : Z }.

(** An entry of the static face table [faces] of [./voxel-block]: the
    direction of the face, its corners (offset inside the unit cube and UV
    offset) and the atlas row of the face. *)
Record Corner (num : Type) := mkCorner {
  pos : Z * Z * Z;
  uv : num * num;
}.
Arguments mkCorner {num} _ _.
Arguments pos {num} _.
Arguments uv {num} _.

Record Face (num : Type) := mkFace {
  dir : Z * Z * Z;
  corners : list (Corner num);
  uvRow : num;
}.
Arguments mkFace {num} _ _ _.
Arguments dir {num} _.
Arguments corners {num} _.
Arguments uvRow {num} _.

(** The four arrays [findFaces] pushes to. *)
Record MeshBuffers (num : Type) := mkBuffers {
  positions : list Z;
  normals : list Z;
  indices : list Z;
  uvs : list num;
}.
Arguments mkBuffers {num} _ _ _ _.
Arguments positions {num} _.
Arguments normals {num} _.
Arguments indices {num} _.
Arguments uvs {num} _.

(** The part of three.js the code touches.  Objects have an identity, their
    [id], drawn from a counter of the library; a scene is the list of its
    children, and [remove] takes out the first child that is the given
    object.  The program has one scene, and the counter is kept with it. *)
Inductive Filter := LinearFilter | NearestFilter | NearestMipmapNearestFilter
                  | LinearMipmapLinearFilter.

Record Texture := mkTexture {
  magFilter : Filter;
  minFilter : Filter;
  generateMipmaps : bool;
}.

Record Mesh (num : Type) := mkMesh {
  mesh_id : nat;
  geometry : MeshBuffers num;
  material_map : Texture;
  mesh_position : num * num * num;
}.
Arguments mkMesh {num} _ _ _ _.
Arguments mesh_id {num} _.
Arguments geometry {num} _.
Arguments material_map {num} _.
Arguments mesh_position {num} _.

(** A block of the first-generation world: what [newBlock(material)] builds,
    with the position the code then assigns. *)
Inductive Material := Grass | Stone.

Record Block (num : Type) := mkBlock {
  block_id : nat;
  block_material : Material;
  block_position : num * num * num;
}.
Arguments mkBlock {num} _ _ _.
Arguments block_id {num} _.
Arguments block_material {num} _.
Arguments block_position {num} _.

Inductive Object3D (num : Type) :=
| AmbientLight (id : nat) (color intensity : Z)
| MeshObject (m : Mesh num)
| BlockObject (b : Block num).
Arguments AmbientLight {num} _ _ _.
Arguments MeshObject {num} _.
Arguments BlockObject {num} _.

Definition object_id {num} (o : Object3D num) : nat :=
  match o with
  | AmbientLight id _ _ => id
  | MeshObject m => mesh_id m
  | BlockObject b => block_id b
  end.

Record Scene (num : Type) := mkScene {
  children : list (Object3D num);
  next_id : nat;
}.
Arguments mkScene {num} _ _.
Arguments children {num} _.
Arguments next_id {num} _.

(** [scene.add(o)] *)
Definition scene_add {num} (s : Scene num) (o : Object3D num) : Scene num :=
  mkScene (children s ++ [o]) (next_id s).

Fixpoint remove_first {num} (id : nat) (l : list (Object3D num)) : list (Object3D num) :=
  match l with
  | [] => []
  | o :: l' => if (object_id o =? id)%nat then l' else o :: remove_first id l'
  end.

(** [scene.remove(o)] *)
Definition scene_remove {num} (s : Scene num) (o : Object3D num) : Scene num :=
  mkScene (remove_first (object_id o) (children s)) (next_id s).

(** The constructor's options. *)
Record UvOpts (num : Type) := mkUvOpts {
  uv_imageTextures : Texture;
  uv_size : num;
  uv_imageWidth : num;
  uv_imageHeight : num;
}.
Arguments mkUvOpts {num} _ _ _ _.
Arguments uv_imageTextures {num} _.
Arguments uv_size {num} _.
Arguments uv_imageWidth {num} _.
Arguments uv_imageHeight {num} _.

Record VoxelContructorOpts (num : Type) := mkOpts {
  opt_chunkSize : Z;
  opt_scene : Scene num;
  opt_uv : UvOpts num;
}.
Arguments mkOpts {num} _ _ _.
Arguments opt_chunkSize {num} _.
Arguments opt_scene {num} _.
Arguments opt_uv {num} _.

(** The fields of a [VoxelWorld]; [voxelFaceMap] is a [CoordinateMap3D], see
    below. *)
Record VoxelWorld (num : Type) := mkWorld {
  CHUNK_SIZE : Z;
  scene : Scene num;
  voxelFaceMap : gmap (Z * Z * Z) num;
  imageTextures : Texture;
  tileWidthRatio : num;
  tileHeightRatio : num;
}.
Arguments mkWorld {num} _ _ _ _ _ _.
Arguments CHUNK_SIZE {num} _.
Arguments scene {num} _.
Arguments voxelFaceMap {num} _.
Arguments imageTextures {num} _.
Arguments tileWidthRatio {num} _.
Arguments tileHeightRatio {num} _.

(** Modelled from the spec: [CoordinateMap3D] of [./voxel-block] is not part
    of the sources.  By section 4.1 it is a sparse map from (x, y, z) to a
    tile; [get] answers the tile or "absent" and [set] inserts or overwrites:
    a finite map with lookup and insertion. *)
Definition CoordinateMap3D_get {num} (m : gmap (Z * Z * Z) num) (x y z : Z)
  : option num :=
  m !! (x, y, z).

Definition CoordinateMap3D_set {num} (m : gmap (Z * Z * Z) num) (x y z : Z) (v : num)
  : gmap (Z * Z * Z) num :=
  <[(x, y, z) := v]> m.

(** What [loadChunk] returns. *)
Record ChunkData (num : Type) := mkChunk {
  tree : Octree.Node;
  blocks : list (Mesh num);
}.
Arguments mkChunk {num} _ _.
Arguments tree {num} _.
Arguments blocks {num} _.

(** ** Terrain elevation *)

Section Seed.
Context {num : Type} `{JsNumber num}.

(** [getCoord = createNoise2D()]: the noise field of [lib/perlin], fixed
    when the module is loaded. *)
Variable getCoord : num -> num -> num.

Definition getElevation (x y : num) : num :=
  let x := nround (ndiv x (of_Z 2)) in
  let y := nround (ndiv y (of_Z 2)) in
  ndiv (nround (nmul (ndiv (getCoord x y) (of_Z 2)) (of_Z 10))) (of_Z 10).

End Seed.

(** ** VoxelWorld *)

Section VoxelWorldOps.
Context {num : Type} `{JsNumber num}.

(** The collaborators that are not part of the sources: the noise field,
    the face table of [./voxel-block], the column-fill policy
    [loadVoxelChunk] of [./chunks/load-chunk] (given the base y of the
    chunk, the calls [addBlock(uv, yy)] it makes, in order) and the
    capacity of an octree node. *)
Variable getCoord : num -> num -> num.
Variable faces : list (Face num).
Variable loadVoxelChunk : Z -> list (num * Z).
Variable capacity : nat.

Definition constructor (o : VoxelContructorOpts num) : VoxelWorld num :=
  let sc := opt_scene o in
  let light := AmbientLight (next_id sc) 4210752 50 in
  mkWorld
    (opt_chunkSize o)
    (scene_add (mkScene (children sc) (S (next_id sc))) light)
    ∅
    (mkTexture NearestFilter NearestMipmapNearestFilter false)
    (ndiv (uv_size (opt_uv o)) (uv_imageWidth (opt_uv o)))
    (ndiv (uv_size (opt_uv o)) (uv_imageHeight (opt_uv o))).

Definition set_voxelFaceMap (w : VoxelWorld num) (m : gmap (Z * Z * Z) num) : VoxelWorld num :=
  mkWorld (CHUNK_SIZE w) (scene w) m (imageTextures w)
          (tileWidthRatio w) (tileHeightRatio w).

Definition set_scene (w : VoxelWorld num) (s : Scene num) : VoxelWorld num :=
  mkWorld (CHUNK_SIZE w) s (voxelFaceMap w) (imageTextures w)
          (tileWidthRatio w) (tileHeightRatio w).

Definition addBlockToTree (tree : Octree.Node) (pos : XYZ) : Octree.Node :=
  Octree.insert capacity tree
    (Octree.mkAABB (xyz_x pos) (xyz_y pos) (xyz_z pos) 1 1 1).

(** The state a chunk's generation pass works on: the world (for its
    [voxelFaceMap]), the chunk's tree and the array [blocksToIterate]. *)
Definition GenState : Type := VoxelWorld num * Octree.Node * list XYZ.

(** The closure [addBlock] of [loadVoxel]. *)
Definition addBlock (xc zc : Z) (st : GenState) (uv : num) (yy : Z) : GenState :=
  let '(w, tree, array) := st in
  let newPos := mkXYZ xc yy zc in
  (set_voxelFaceMap w
     (CoordinateMap3D_set (voxelFaceMap w) (xyz_x newPos) (xyz_y newPos) (xyz_z newPos) uv),
   addBlockToTree tree newPos,
   array ++ [newPos]).

(** The value [loadVoxel] binds to [elev]. *)
Definition loadVoxel_elev (xc zc : Z) : num :=
  nsub (getElevation getCoord (of_Z xc) (of_Z zc)) (of_Z 5).

Definition loadVoxel (xc zc y : Z) (st : GenState) : GenState :=
  let elev := loadVoxel_elev xc zc in
  fold_left (fun st call => addBlock xc zc st call.1 call.2) (loadVoxelChunk y) st.

(** [loopChunk(x, y, f)]: the bound [this.CHUNK_SIZE] is the one of the
    world at loop entry; no callback the class passes changes it. *)
Definition loopChunk {S : Type} (w : VoxelWorld num) (x y : Z)
           (f : Z -> Z -> S -> S) (s : S) : S :=
  fold_left
    (fun s i =>
       let yc := i + y in
       fold_left (fun s z => let xc := z + x in f xc yc s) (seqZ 0 (CHUNK_SIZE w)) s)
    (seqZ 0 (CHUNK_SIZE w)) s.

(** One corner of an emitted face. *)
Definition push_corner (w : VoxelWorld num) (voxel : XYZ) (uvVoxel : num)
           (d : Z * Z * Z) (row : num) (b : MeshBuffers num) (p : Corner num)
  : MeshBuffers num :=
  mkBuffers
    (positions b ++ [(pos p).1.1 + xyz_x voxel;
                     (pos p).1.2 + xyz_y voxel;
                     (pos p).2 + xyz_z voxel])
    (normals b ++ [d.1.1; d.1.2; d.2])
    (indices b)
    (uvs b ++ [nmul (nadd uvVoxel (uv p).1) (tileWidthRatio w);
               nsub (of_Z 1)
                    (nmul (nsub (nadd row (of_Z 1)) (uv p).2) (tileHeightRatio w))]).

(** The body of the loop over [faces].  [positions] holds three components
    per vertex, so [positions.length / 3] is a whole number (see
    [mesh_buffers_triples]). *)
Definition face_step (w : VoxelWorld num) (voxel : XYZ) (uvVoxel : num)
           (b : MeshBuffers num) (f : Face num) : MeshBuffers num :=
  let neighbor :=
    CoordinateMap3D_get (voxelFaceMap w)
      (xyz_x voxel + (dir f).1.1) (xyz_y voxel + (dir f).1.2) (xyz_z voxel + (dir f).2) in
  match neighbor with
  | None =>
      let ndx := Z.of_nat (length (positions b)) / 3 in
      let b' := fold_left (push_corner w voxel uvVoxel (dir f) (uvRow f)) (corners f) b in
      mkBuffers (positions b') (normals b')
                (indices b' ++ [ndx; ndx + 1; ndx + 2; ndx + 2; ndx + 1; ndx + 3])
                (uvs b')
  | Some _ => b
  end.

Definition findFaces (w : VoxelWorld num) (voxel : XYZ) (b : MeshBuffers num)
  : MeshBuffers num :=
  let uvVoxel :=
    default nan
      (CoordinateMap3D_get (voxelFaceMap w) (xyz_x voxel) (xyz_y voxel) (xyz_z voxel)) in
  fold_left (face_step w voxel uvVoxel) faces b.

(** [chunkY ||= -1] *)
Definition effective_chunkY (chunkY : option Z) : Z :=
  match chunkY with
  | Some c => if c =? 0 then -1 else c
  | None => -1
  end.

Definition chunk_bounds (w : VoxelWorld num) (chunkX chunkZ : Z) (chunkY : option Z)
  : Octree.AABB :=
  let x := chunkX * CHUNK_SIZE w in
  let y := effective_chunkY chunkY * CHUNK_SIZE w in
  let z := chunkZ * CHUNK_SIZE w in
  Octree.mkAABB x y z (CHUNK_SIZE w) (CHUNK_SIZE w) (CHUNK_SIZE w).

(** First half of [loadChunk]: the tree and the pass over the columns. *)
Definition generate (w : VoxelWorld num) (chunkX chunkZ : Z) (chunkY : option Z)
  : GenState :=
  let bounds := chunk_bounds w chunkX chunkZ chunkY in
  let tree := Octree.new bounds in
  loopChunk w (Octree.x bounds) (Octree.z bounds)
    (fun xc zc st => loadVoxel xc zc (Octree.y bounds) st)
    (w, tree, []).

(** Second half: the pass of [findFaces] over [blocksToIterate]. *)
Definition mesh_buffers (w : VoxelWorld num) (blocksToIterate : list XYZ) : MeshBuffers num :=
  fold_left (fun b pos => findFaces w pos b) blocksToIterate (mkBuffers [] [] [] []).

(** [geometry] holds the arrays as the mesher pushed them, before the
    rendering library converts them and recomputes the vertex normals. *)
Definition loadChunk (w : VoxelWorld num) (chunkX chunkZ : Z) (chunkY : option Z)
  : VoxelWorld num * ChunkData num :=
  let '(w1, tree, blocksToIterate) := generate w chunkX chunkZ chunkY in
  let geometry := mesh_buffers w1 blocksToIterate in
  let tenth := ndiv (of_Z 1) (of_Z 10) in
  let mesh :=
    mkMesh (next_id (scene w1)) geometry (imageTextures w1)
           (nsub (of_Z 0) tenth, of_Z 0, nsub (of_Z 0) tenth) in
  let sc := scene_add (mkScene (children (scene w1)) (S (next_id (scene w1))))
                      (MeshObject mesh) in
  (set_scene w1 sc, mkChunk tree [mesh]).

End VoxelWorldOps.

(** ** The first-generation world ([generateWorld]) *)

Module World.
Section GenerateWorld.
Context {num : Type} `{JsNumber num}.

Variable getCoord : num -> num -> num.

(** The octree of this path receives boxes at fractional heights (the
    elevation has one decimal); the class is taken as given. *)
Variable Tree : Type.
Variable Tree_new : num * num * num * (num * num * num) -> Tree.
Variable Tree_insert : Tree -> num * num * num * (num * num * num) -> Tree.

Definition CHUNK_SIZE : Z := 2.

(** The variables [generateWorld] closes over. *)
Record State := mkState {
  tree : Tree;
  blocks : list (Block num);
  scene : Scene num;
}.

Definition add_block (st : State) (block : Block num) : State :=
  mkState
    (Tree_insert (tree st) (block_position block, (of_Z 1, of_Z 1, of_Z 1)))
    (blocks st ++ [block])
    (scene_add (scene st) (BlockObject block)).

(** [newBlock(material)] with [position] assigned afterwards. *)
Definition newBlock_at (st : State) (m : Material) (position : num * num * num)
  : State * Block num :=
  (mkState (tree st) (blocks st)
           (mkScene (children (scene st)) (S (next_id (scene st)))),
   mkBlock (next_id (scene st)) m position).

(** The value [add_blocks] binds to [elev]. *)
Definition elev (xc yc : Z) : num :=
  nsub (getElevation getCoord (of_Z xc) (of_Z yc)) (of_Z 5).

Definition add_blocks (st : State) (xc yc : Z) : State :=
  let elev := elev xc yc in
  let '(st, grassBlock) := newBlock_at st Grass (of_Z xc, elev, of_Z yc) in
  let st := add_block st grassBlock in
  let '(st, stoneBlock) :=
    newBlock_at st Stone (of_Z xc, nsub elev (of_Z 1), of_Z yc) in
  add_block st stoneBlock.

(** Visiting columns in a given order. *)
Definition visit (columns : list (Z * Z)) (st : State) : State :=
  fold_left (fun st c => add_blocks st c.1 c.2) columns st.

(** The two [for] loops, counting down from [CHUNK_SIZE] to 1. *)
Definition columns : list (Z * Z) :=
  i ← reverse (seqZ 1 CHUNK_SIZE);
  z ← reverse (seqZ 1 CHUNK_SIZE);
  [(z, i)].

Definition generateWorld (scene : Scene num) : State :=
  let tree :=
    Tree_new ((of_Z 0, of_Z (-7), of_Z 0), (of_Z CHUNK_SIZE, of_Z 5, of_Z CHUNK_SIZE)) in
  visit columns (mkState tree [] scene).

End GenerateWorld.
Arguments tree {num Tree} _.
Arguments blocks {num Tree} _.
Arguments scene {num Tree} _.
End World.

(** ** The chunk streamer *)

(** The state [render.ts] works on: the world (whose scene is the one handed
    to [setRenderScene]), the camera position, the chunk store [cam.octrees]
    (absent until the camera is set up; its [map] is keyed by the chunk
    coordinates, which the code reads back with [parseInt]), the tick counter
    and [gameState.renderDistance]. *)
Record Game (num : Type) := mkGame {
  world : VoxelWorld num;
  camera_x : num;
  camera_z : num;
  octrees : option (gmap (Z * Z) (ChunkData num));
  counter : Z;
  renderDistance : Z;
}.
Arguments mkGame {num} _ _ _ _ _ _.
Arguments world {num} _.
Arguments camera_x {num} _.
Arguments camera_z {num} _.
Arguments octrees {num} _.
Arguments counter {num} _.
Arguments renderDistance {num} _.

(** A loop body either goes on with a state or has executed [return]. *)
Inductive Flow (S : Type) := Running (s : S) | Returned (s : S).
Arguments Running {S} _.
Arguments Returned {S} _.

Definition flow_state {S} (f : Flow S) : S :=
  match f with Running s | Returned s => s end.

Definition for_each {S A} (l : list A) (body : A -> S -> Flow S) (s : S) : Flow S :=
  fold_left (fun f a => match f with Running s => body a s | Returned s => Returned s end)
            l (Running s).

Section Render.
Context {num : Type} `{JsNumber num}.

(** [floorMultiple] of [lib/util], [CHUNK_SIZE] of [./main] and the [get]
    of the chunk store are not part of the sources. *)
Variable floorMultiple : num -> num -> num.
Variable CHUNK_SIZE_main : Z.
Variable octrees_get : gmap (Z * Z) (ChunkData num) -> num -> num -> option (ChunkData num).

Definition counterOg : Z := 50.

(** [floorMultiple(position, CHUNK_SIZE) / 8] *)
Definition viewer_coordinate (position : num) : num :=
  ndiv (floorMultiple position (of_Z CHUNK_SIZE_main)) (of_Z 8).

(** [x < cx || x >= cx + r || y < cy || y >= cy + r] *)
Definition out_of_radius (x y : num) (r : Z) (c : Z * Z) : bool :=
  nlt x (of_Z c.1) || nge x (of_Z (c.1 + r)) ||
  nlt y (of_Z c.2) || nge y (of_Z (c.2 + r)).

Definition set_game_scene (g : Game num) (s : Scene num) : Game num :=
  mkGame (set_scene (world g) s) (camera_x g) (camera_z g) (octrees g)
         (counter g) (renderDistance g).

Definition set_octrees (g : Game num) (o : option (gmap (Z * Z) (ChunkData num)))
  : Game num :=
  mkGame (world g) (camera_x g) (camera_z g) o (counter g) (renderDistance g).

(** The body of the loop over the keys of [cam.octrees.map]; [chunk] is the
    entry [cam.octrees.map[i]]. *)
Definition delete_step (x y : num) (r : Z) (i : Z * Z) (chunk : ChunkData num)
           (g : Game num) : Game num :=
  if out_of_radius x y r i then
    let g :=
      fold_left (fun g b => set_game_scene g (scene_remove (scene (world g)) (MeshObject b)))
                (blocks chunk) g in
    set_octrees g (delete i <$> octrees g)
  else g.

(** The loop visits every key of the store once; the order of the visits
    does not show in what the statements below say about the result. *)
Definition deleteIfOutRadius (r : Z) (g : Game num) : Game num :=
  let r := r + 1 in
  let x := viewer_coordinate (camera_x g) in
  let y := viewer_coordinate (camera_z g) in
  match octrees g with
  | Some map => map_fold (delete_step x y r) g map
  | None => g
  end.

(** The body of the inner loop of [addInRadius]; the call that would load
    the chunk is commented out in the code. *)
Definition addInRadius_body (xx yy : num) (g : Game num) : Flow (Game num) :=
  match octrees g with
  | None => Returned g
  | Some map =>
      match octrees_get map xx yy with
      | None => Running g
      | Some _ => Running g
      end
  end.

(** [addInRadius]: the loop variables take the values [y], [y + 1], ... and
    [x], [x + 1], ..., [r] of them each (the bodies change nothing, so the
    number of rounds does not show in the result). *)
Definition addInRadius (r : Z) (g : Game num) : Game num :=
  let x := viewer_coordinate (camera_x g) in
  let y := viewer_coordinate (camera_z g) in
  flow_state
    (for_each (seqZ 0 r)
       (fun j g =>
          let yy := nadd y (of_Z j) in
          for_each (seqZ 0 r)
            (fun i g => let xx := nadd x (of_Z i) in addInRadius_body xx yy g) g)
       g).

(** The callback of [chunkRenderLoop]: both calls of its body are commented
    out in the code. *)
Definition chunkRenderLoop (g : Game num) : Game num :=
  if counter g <=? 0 then
    let g := mkGame (world g) (camera_x g) (camera_z g) (octrees g)
                    counterOg (renderDistance g) in
    let renderDistance := renderDistance g in
    g
  else
    mkGame (world g) (camera_x g) (camera_z g) (octrees g)
           (counter g - 1) (renderDistance g).

End Render.

(** ** Vocabulary of the statements *)

Section Vocabulary.
Context {num : Type} `{JsNumber num}.

(** The face [f] of [voxel] is exposed: the map has no voxel at
    [voxel + dir f]. *)
Definition exposed (w : VoxelWorld num) (voxel : XYZ) (f : Face num) : bool :=
  match CoordinateMap3D_get (voxelFaceMap w)
          (xyz_x voxel + (dir f).1.1) (xyz_y voxel + (dir f).1.2)
          (xyz_z voxel + (dir f).2) with
  | None => true
  | Some _ => false
  end.

(** Exposed faces of a list of voxels, each voxel counted as often as the
    list has it. *)
Definition exposed_faces (faces : list (Face num)) (w : VoxelWorld num)
           (voxels : list XYZ) : nat :=
  sum_list (map (fun v => length (filter (fun f => exposed w v f = true) faces)) voxels).

(** Vertices held by a set of buffers: three position components each. *)
Definition vertex_count (b : MeshBuffers num) : nat :=
  (length (positions b) / 3)%nat.

(** The two UV components of the specification for one corner. *)
Definition corner_uv (tileId uvRow tileWidthRatio tileHeightRatio : num)
           (p : Corner num) : list num :=
  [nmul (nadd tileId (uv p).1) tileWidthRatio;
   nsub (of_Z 1) (nmul (nsub (nadd uvRow (of_Z 1)) (uv p).2) tileHeightRatio)].

(** The columns [loopChunk] visits for a chunk of the given size anchored
    at [(x, z)], in order. *)
Definition chunk_columns (size x z : Z) : list (Z * Z) :=
  i ← seqZ 0 size; k ← seqZ 0 size; [(k + x, i + z)].

(** The voxels a generation pass places, with their tiles, in order. *)
Definition chunk_voxels (loadVoxelChunk : Z -> list (num * Z)) (size x y z : Z)
  : list (XYZ * num) :=
  c ← chunk_columns size x z; call ← loadVoxelChunk y; [(mkXYZ c.1 call.2 c.2, call.1)].

Definition write_voxels (m : gmap (Z * Z * Z) num) (vs : list (XYZ * num))
  : gmap (Z * Z * Z) num :=
  fold_left (fun m e => CoordinateMap3D_set m (xyz_x e.1) (xyz_y e.1) (xyz_z e.1) e.2) vs m.

(** Chunk [c] is loaded. *)
Definition loaded (g : Game num) (c : Z * Z) : Prop :=
  exists map chunk, octrees g = Some map /\ map !! c = Some chunk.

(** The unload step as specified, for a step of the streamer: a loaded
    chunk whose window of radius [r] does not hold the viewer coordinate
    [(x, y)] is not loaded after the step. *)
Definition unloads_outside (step : Game num -> Game num) (x y : num) (r : Z)
           (g : Game num) : Prop :=
  forall c, loaded g c -> out_of_radius x y r c = true -> ~ loaded (step g) c.

(** The load step as specified: every coordinate of the window is loaded
    after the step. *)
Definition loads_window (step : Game num -> Game num) (window : list (Z * Z))
           (g : Game num) : Prop :=
  forall c, c ∈ window -> loaded (step g) c.

(** Unloading as specified: once chunk [c] is not loaded, none of its voxels
    is left in the voxel map. *)
Definition voxels_follow_chunk (g : Game num) (c : Z * Z) (voxels : list XYZ) : Prop :=
  ~ loaded g c ->
  forall p, p ∈ voxels -> voxelFaceMap (world g) !! (xyz_x p, xyz_y p, xyz_z p) = None.

(** Two worlds that differ at most in their scene. *)
Definition same_terrain (w1 w2 : VoxelWorld num) : Prop :=
  CHUNK_SIZE w1 = CHUNK_SIZE w2 /\
  voxelFaceMap w1 = voxelFaceMap w2 /\
  imageTextures w1 = imageTextures w2 /\
  tileWidthRatio w1 = tileWidthRatio w2 /\
  tileHeightRatio w1 = tileHeightRatio w2.

(** Quads a face contributes: one when exposed. *)
Definition quads (e : bool) : nat := if e then 1%nat else 0%nat.

(** The map key of a placed voxel. *)
Definition voxel_key (e : XYZ * num) : Z * Z * Z := (xyz_x e.1, xyz_y e.1, xyz_z e.1).

(** The elevation as the code computes it: the noise is sampled at the
    halved and rounded column coordinates, halved, rounded to one decimal
    and lowered by 5. *)
Definition elevation_formula (getCoord : num -> num -> num) (xc zc : Z) : num :=
  nsub
    (ndiv
       (nround
          (nmul
             (ndiv (getCoord (nround (ndiv (of_Z xc) (of_Z 2)))
                             (nround (ndiv (of_Z zc) (of_Z 2))))
                   (of_Z 2))
             (of_Z 10)))
       (of_Z 10))
    (of_Z 5).

(** What [add_blocks] places for a column: material and position. *)
Definition column_blocks (getCoord : num -> num -> num) (c : Z * Z)
  : list (Material * (num * num * num)) :=
  [(Grass, (of_Z c.1, elevation_formula getCoord c.1 c.2, of_Z c.2));
   (Stone, (of_Z c.1, nsub (elevation_formula getCoord c.1 c.2) (of_Z 1), of_Z c.2))].

Definition placed {Tree : Type} (st : World.State Tree)
  : list (Material * (num * num * num)) :=
  (fun b => (block_material b, block_position b)) <$> World.blocks st.

(** Removing the meshes of a chunk, one after the other. *)
Definition remove_meshes (bs : list (Mesh num)) (s : Scene num) : Scene num :=
  fold_left (fun s b => scene_remove s (MeshObject b)) bs s.

(** [g] with another store and another scene. *)
Definition with_store_scene (g : Game num) (o : option (gmap (Z * Z) (ChunkData num)))
           (s : Scene num) : Game num :=
  mkGame (set_scene (world g) s) (camera_x g) (camera_z g) o (counter g) (renderDistance g).

(** What a pass over the chunks of [m] leaves of the store [map0] and of
    the scene of [g0]: the store [map'] and the scene [s]. *)
Definition unloaded (x y : num) (r : Z) (g0 : Game num)
           (map0 m map' : gmap (Z * Z) (ChunkData num)) (s : Scene num) : Prop :=
  (forall k, map' !! k
             = if bool_decide (is_Some (m !! k)) && out_of_radius x y r k
               then None else map0 !! k) /\
  next_id s = next_id (scene (world g0)) /\
  children s `sublist_of` children (scene (world g0)) /\
  (forall o, o ∈ children (scene (world g0)) ->
             (forall k chunk b, m !! k = Some chunk -> out_of_radius x y r k = true ->
                                b ∈ blocks chunk -> mesh_id b <> object_id o) ->
             o ∈ children s) /\
  (NoDup (object_id <$> children (scene (world g0))) ->
   forall k chunk b o, m !! k = Some chunk -> out_of_radius x y r k = true ->
                       b ∈ blocks chunk -> o ∈ children s ->
                       object_id o <> mesh_id b).

(** The UV components one voxel adds: for each exposed face, in the order
    of the table, two per corner. *)
Definition voxel_uvs (faces : list (Face num)) (w : VoxelWorld num) (voxel : XYZ)
           (tileId : num) : list num :=
  flat_map
    (fun f =>
       if exposed w voxel f
       then flat_map (corner_uv tileId (uvRow f) (tileWidthRatio w) (tileHeightRatio w))
                     (corners f)
       else [])
    faces.

End Vocabulary.

(** ** Fixtures: concrete collaborators to run the code on *)

Module Sample.

Definition n (k : Z) : QNum.t := of_Z k.

(** Modelled from the spec: the face table of [./voxel-block] is not part
    of the sources.  Section 3 fixes its shape (six directions, four
    corners each in a fixed winding order, an atlas row per face); the
    entries below are those of the unit cube. *)
Definition faces : list (Face QNum.t) :=
  [ mkFace (-1, 0, 0)
      [mkCorner (0, 1, 0) (n 0, n 1); mkCorner (0, 0, 0) (n 0, n 0);
       mkCorner (0, 1, 1) (n 1, n 1); mkCorner (0, 0, 1) (n 1, n 0)] (n 0);
    mkFace (1, 0, 0)
      [mkCorner (1, 1, 1) (n 0, n 1); mkCorner (1, 0, 1) (n 0, n 0);
       mkCorner (1, 1, 0) (n 1, n 1); mkCorner (1, 0, 0) (n 1, n 0)] (n 0);
    mkFace (0, -1, 0)
      [mkCorner (1, 0, 1) (n 1, n 0); mkCorner (0, 0, 1) (n 0, n 0);
       mkCorner (1, 0, 0) (n 1, n 1); mkCorner (0, 0, 0) (n 0, n 1)] (n 1);
    mkFace (0, 1, 0)
      [mkCorner (0, 1, 1) (n 1, n 1); mkCorner (1, 1, 1) (n 0, n 1);
       mkCorner (0, 1, 0) (n 1, n 0); mkCorner (1, 1, 0) (n 0, n 0)] (n 2);
    mkFace (0, 0, -1)
      [mkCorner (1, 0, 0) (n 0, n 0); mkCorner (0, 0, 0) (n 1, n 0);
       mkCorner (1, 1, 0) (n 0, n 1); mkCorner (0, 1, 0) (n 1, n 1)] (n 0);
    mkFace (0, 0, 1)
      [mkCorner (0, 0, 1) (n 0, n 0); mkCorner (1, 0, 1) (n 1, n 0);
       mkCorner (0, 1, 1) (n 0, n 1); mkCorner (1, 1, 1) (n 1, n 1)] (n 0) ].

(** Modelled from the spec: the column-fill policy [loadVoxelChunk] is not
    part of the sources.  Section 4.3 has it place a topsoil tile and a
    subsurface tile below it; here tile 0 on top of tile 1, at the two
    highest levels of the chunk that starts at [y]. *)
Definition loadVoxelChunk (size : Z) (y : Z) : list (QNum.t * Z) :=
  [(n 0, y + size - 1); (n 1, y + size - 2)].

(** Modelled from the spec: [floorMultiple] of [lib/util] is not part of
    the sources; section 4.5 has the viewer position floor-divided by the
    chunk size, so [floorMultiple(a, m)] is [a] rounded down to a multiple
    of [m]. *)
Definition floorMultiple (a m : QNum.t) : QNum.t :=
  match a, m with
  | Some p, Some q =>
      if Qeq_bool q 0 then None
      else Some (Qred (Qmult (inject_Z (Qfloor (Qdiv p q))) q))
  | _, _ => None
  end.

(** Modelled from the spec: the [get(x, y)] of the chunk store is not part of
    the sources; the store holds one entry per chunk coordinate, so [get]
    answers the entry at whole coordinates and nothing elsewhere. *)
Definition octrees_get (map : gmap (Z * Z) (ChunkData QNum.t)) (x y : QNum.t)
  : option (ChunkData QNum.t) :=
  match x, y with
  | Some p, Some q =>
      if Qeq_bool p (inject_Z (Qfloor p)) && Qeq_bool q (inject_Z (Qfloor q))
      then map !! (Qfloor p, Qfloor q) else None
  | _, _ => None
  end.

(** Two noise fields. *)
Definition noise_x (x y : QNum.t) : QNum.t := x.
Definition noise_flat (k : Z) (x y : QNum.t) : QNum.t := n k.

Definition texture : Texture := mkTexture LinearFilter LinearMipmapLinearFilter true.

(** A world of chunk size 2 over a 64 x 32 atlas of 16-pixel tiles. *)
Definition opts : VoxelContructorOpts QNum.t :=
  mkOpts 2 (mkScene [] 0) (mkUvOpts texture (n 16) (n 64) (n 32)).

Definition world0 : VoxelWorld QNum.t := constructor opts.

(** The generation pass of chunk (0, 0): the world after it and the
    voxels it placed. *)
Definition generated :=
  generate noise_x (loadVoxelChunk 2) 4 world0 0 0 None.
Definition world1 : VoxelWorld QNum.t := generated.1.1.
Definition voxels1 : list XYZ := generated.2.

(** The example of section 8 of the specification: a grass voxel at
    (0, 0, 0) on a stone voxel at (0, -1, 0), nothing around them. *)
Definition stacked_voxels : list XYZ := [mkXYZ 0 0 0; mkXYZ 0 (-1) 0].

Definition stacked : VoxelWorld QNum.t :=
  set_voxelFaceMap world0
    (CoordinateMap3D_set (CoordinateMap3D_set ∅ 0 0 0 (n 0)) 0 (-1) 0 (n 1)).

(** A world of chunk size 8 with chunk (0, 0) loaded, and the game around
    it: the camera at [(x, z)], chunk (0, 0) in the store, render distance
    1. *)
Definition opts8 : VoxelContructorOpts QNum.t :=
  mkOpts 8 (mkScene [] 0) (mkUvOpts texture (n 16) (n 64) (n 32)).

Definition loaded8 : VoxelWorld QNum.t * ChunkData QNum.t :=
  loadChunk noise_x faces (loadVoxelChunk 8) 4 (constructor opts8) 0 0 None.

(** The voxels of that chunk. *)
Definition voxels8 : list XYZ :=
  (generate noise_x (loadVoxelChunk 8) 4 (constructor opts8) 0 0 None).2.

Definition game (x z counter : Z) : Game QNum.t :=
  mkGame loaded8.1 (n x) (n z) (Some {[ (0, 0) := loaded8.2 ]}) counter 1.

(** The same before any chunk is loaded. *)
Definition game0 (x z counter : Z) : Game QNum.t :=
  mkGame (constructor opts8) (n x) (n z) (Some ∅) counter 1.

Definition unload := deleteIfOutRadius floorMultiple 8.
Definition fill := addInRadius floorMultiple 8 octrees_get.

(** A voxel at the origin with a voxel on each of its six sides. *)
Definition enclosed : VoxelWorld QNum.t :=
  set_voxelFaceMap world0
    (write_voxels ∅
       [(mkXYZ 0 0 0, n 0); (mkXYZ (-1) 0 0, n 1); (mkXYZ 1 0 0, n 1);
        (mkXYZ 0 (-1) 0, n 1); (mkXYZ 0 1 0, n 1); (mkXYZ 0 0 (-1), n 1);
        (mkXYZ 0 0 1, n 1)]).

End Sample.

(** ** Vocabulary of the further properties *)

Section FurtherVocabulary.
Context {num : Type} `{JsNumber num}.

(** The indices of the [k]-th quad of a mesh: two triangles over the
    vertices [4k .. 4k + 3]. *)
Definition quad_indices (k : nat) : list Z :=
  let ndx := 4 * Z.of_nat k in
  [ndx; ndx + 1; ndx + 2; ndx + 2; ndx + 1; ndx + 3].

(** The position and the normal components one voxel adds: for each exposed
    face, in the order of the table, three per corner. *)
Definition voxel_positions (faces : list (Face num)) (w : VoxelWorld num) (voxel : XYZ)
  : list Z :=
  flat_map
    (fun f =>
       if exposed w voxel f
       then flat_map (fun p => [(pos p).1.1 + xyz_x voxel;
                                (pos p).1.2 + xyz_y voxel;
                                (pos p).2 + xyz_z voxel]) (corners f)
       else [])
    faces.

Definition voxel_normals (faces : list (Face num)) (w : VoxelWorld num) (voxel : XYZ)
  : list Z :=
  flat_map
    (fun f =>
       if exposed w voxel f
       then flat_map (fun _ => [(dir f).1.1; (dir f).1.2; (dir f).2]) (corners f)
       else [])
    faces.

(** The counter after a tick. *)
Definition next_counter (c : Z) : Z := if c <=? 0 then counterOg else c - 1.

(** The ids of a scene are distinct and below the next id to hand out. *)
Definition scene_wf (s : Scene num) : Prop :=
  NoDup (object_id <$> children s) /\
  Forall (fun o => (object_id o < next_id s)%nat) (children s).

(** The box [add_block] inserts for a block. *)
Definition block_box (b : Block num) : num * num * num * (num * num * num) :=
  (block_position b, (of_Z 1, of_Z 1, of_Z 1)).

End FurtherVocabulary.

(** * Properties *)

(** ** Folds *)

Lemma fold_left_bind {A B S : Type} (f : S -> B -> S) (g : A -> list B) (l : list A) (s : S) :
  fold_left f (l ≫= g) s = fold_left (fun s a => fold_left f (g a) s) l s.
Proof.
  revert s. induction l as [|a l IH]; intros s; [done|].
  rewrite bind_cons, fold_left_app. apply IH.
Qed.

Lemma fold_left_pointwise {A S : Type} (f g : S -> A -> S) (l : list A) (s : S) :
  (forall s a, f s a = g s a) -> fold_left f l s = fold_left g l s.
Proof.
  intros Hfg. revert s. induction l as [|a l IH]; intros s; [done|].
  simpl. rewrite Hfg. apply IH.
Qed.

Lemma fold_left_preserves {A S : Type} (P : S -> Prop) (f : S -> A -> S) (l : list A) (s : S) :
  P s -> (forall s a, P s -> P (f s a)) -> P (fold_left f l s).
Proof.
  intros Hs Hf. revert s Hs. induction l as [|a l IH]; intros s Hs; [done|].
  simpl. apply IH, Hf, Hs.
Qed.

(** ** The mesher *)

Section Mesher.
Context {num : Type} `{JsNumber num}.
Variable faces : list (Face num).

Lemma push_corners_positions (w : VoxelWorld num) voxel tile d row cs b :
  length (positions (fold_left (push_corner w voxel tile d row) cs b))
  = (length (positions b) + 3 * length cs)%nat.
Proof.
  revert b. induction cs as [|p cs IH]; intros b; simpl; [lia|].
  rewrite IH. simpl. rewrite length_app. simpl. lia.
Qed.

Lemma push_corners_normals (w : VoxelWorld num) voxel tile d row cs b :
  length (normals (fold_left (push_corner w voxel tile d row) cs b))
  = (length (normals b) + 3 * length cs)%nat.
Proof.
  revert b. induction cs as [|p cs IH]; intros b; simpl; [lia|].
  rewrite IH. simpl. rewrite length_app. simpl. lia.
Qed.

Lemma push_corners_indices (w : VoxelWorld num) voxel tile d row cs b :
  indices (fold_left (push_corner w voxel tile d row) cs b) = indices b.
Proof.
  revert b. induction cs as [|p cs IH]; intros b; simpl; [done|].
  by rewrite IH.
Qed.

Lemma push_corners_uvs (w : VoxelWorld num) voxel tile d row cs b :
  uvs (fold_left (push_corner w voxel tile d row) cs b)
  = uvs b ++ flat_map (corner_uv tile row (tileWidthRatio w) (tileHeightRatio w)) cs.
Proof.
  revert b. induction cs as [|p cs IH]; intros b; simpl.
  - by rewrite app_nil_r.
  - rewrite IH. simpl. by rewrite <- app_assoc.
Qed.

Lemma face_step_unexposed (w : VoxelWorld num) voxel tile b f :
  exposed w voxel f = false -> face_step w voxel tile b f = b.
Proof.
  unfold exposed, face_step. by destruct (CoordinateMap3D_get _ _ _ _).
Qed.

Lemma face_step_exposed (w : VoxelWorld num) voxel tile b f :
  exposed w voxel f = true ->
  face_step w voxel tile b f
  = let b' := fold_left (push_corner w voxel tile (dir f) (uvRow f)) (corners f) b in
    let ndx := Z.of_nat (length (positions b)) / 3 in
    mkBuffers (positions b') (normals b')
              (indices b ++ [ndx; ndx + 1; ndx + 2; ndx + 2; ndx + 1; ndx + 3])
              (uvs b').
Proof.
  unfold exposed, face_step. destruct (CoordinateMap3D_get _ _ _ _); [done|].
  intros _. simpl. by rewrite push_corners_indices.
Qed.

Lemma face_step_lengths (w : VoxelWorld num) voxel tile b f :
  length (corners f) = 4%nat ->
  let b' := face_step w voxel tile b f in
  let q := quads (exposed w voxel f) in
  length (positions b') = (length (positions b) + 12 * q)%nat /\
  length (normals b') = (length (normals b) + 12 * q)%nat /\
  length (uvs b') = (length (uvs b) + 8 * q)%nat /\
  length (indices b') = (length (indices b) + 6 * q)%nat.
Proof.
  intros H4. simpl. destruct (exposed w voxel f) eqn:E.
  - rewrite face_step_exposed by done. simpl.
    rewrite push_corners_positions, push_corners_normals, push_corners_uvs.
    rewrite !length_app. simpl.
    assert (length (flat_map (corner_uv tile (uvRow f) (tileWidthRatio w)
                                (tileHeightRatio w)) (corners f)) = 8%nat) as ->.
    { destruct (corners f) as [|? [|? [|? [|? [|? ?]]]]]; simpl in *; done. }
    lia.
  - rewrite face_step_unexposed by done. simpl. lia.
Qed.

Lemma fold_face_step_lengths (w : VoxelWorld num) voxel tile fs b :
  Forall (fun f => length (corners f) = 4%nat) fs ->
  let b' := fold_left (face_step w voxel tile) fs b in
  let q := length (filter (fun f => exposed w voxel f = true) fs) in
  length (positions b') = (length (positions b) + 12 * q)%nat /\
  length (normals b') = (length (normals b) + 12 * q)%nat /\
  length (uvs b') = (length (uvs b) + 8 * q)%nat /\
  length (indices b') = (length (indices b) + 6 * q)%nat.
Proof.
  intros Hfs. revert b. induction Hfs as [|f fs Hf Hfs IH]; intros b; simpl.
  - lia.
  - destruct (IH (face_step w voxel tile b f)) as (Hp & Hn & Hu & Hi).
    destruct (face_step_lengths w voxel tile b f Hf) as (Hp' & Hn' & Hu' & Hi').
    rewrite Hp, Hn, Hu, Hi, Hp', Hn', Hu', Hi'.
    unfold quads. destruct (exposed w voxel f) eqn:E.
    + rewrite filter_cons_True by done. simpl. lia.
    + rewrite filter_cons_False by (rewrite E; done). lia.
Qed.

Lemma mesh_fold_lengths (w : VoxelWorld num) voxels b :
  Forall (fun f => length (corners f) = 4%nat) faces ->
  let b' := fold_left (fun b pos => findFaces faces w pos b) voxels b in
  let q := exposed_faces faces w voxels in
  length (positions b') = (length (positions b) + 12 * q)%nat /\
  length (normals b') = (length (normals b) + 12 * q)%nat /\
  length (uvs b') = (length (uvs b) + 8 * q)%nat /\
  length (indices b') = (length (indices b) + 6 * q)%nat.
Proof.
  intros Hfs. revert b. unfold exposed_faces.
  induction voxels as [|v vs IH]; intros b; simpl.
  - lia.
  - destruct (IH (findFaces faces w v b)) as (Hp & Hn & Hu & Hi).
    destruct (fold_face_step_lengths w v
                (default nan (CoordinateMap3D_get (voxelFaceMap w)
                                (xyz_x v) (xyz_y v) (xyz_z v)))
                faces b Hfs) as (Hp' & Hn' & Hu' & Hi').
    rewrite Hp, Hn, Hu, Hi. unfold findFaces. rewrite Hp', Hn', Hu', Hi'. lia.
Qed.

(** The position array always holds whole vertices. *)
Lemma mesh_buffers_triples (w : VoxelWorld num) voxels :
  exists vertices, length (positions (mesh_buffers faces w voxels)) = (3 * vertices)%nat.
Proof.
  unfold mesh_buffers.
  apply (fold_left_preserves
           (fun b => exists n, length (positions b) = (3 * n)%nat)); [by exists 0%nat|].
  intros b v Hb. unfold findFaces.
  apply (fold_left_preserves
           (fun b => exists n, length (positions b) = (3 * n)%nat)); [done|].
  intros b' f [n Hn].
  destruct (exposed w v f) eqn:He.
  - rewrite face_step_exposed by done. simpl. rewrite push_corners_positions, Hn.
    exists (n + length (corners f))%nat. lia.
  - rewrite face_step_unexposed by done. by exists n.
Qed.

Variable getCoord : num -> num -> num.
Variable loadVoxelChunk : Z -> list (num * Z).
Variable capacity : nat.

(** [loadChunk] returns the tree of the generation pass and one mesh, whose
    geometry is the output of the mesher on the voxels of that pass. *)
Lemma loadChunk_result (w : VoxelWorld num) chunkX chunkZ chunkY :
  let st := generate getCoord loadVoxelChunk capacity w chunkX chunkZ chunkY in
  exists mesh,
    (loadChunk getCoord faces loadVoxelChunk capacity w chunkX chunkZ chunkY).2
    = mkChunk st.1.2 [mesh] /\
    geometry mesh = mesh_buffers faces st.1.1 st.2 /\
    mesh_id mesh = next_id (scene st.1.1) /\
    (loadChunk getCoord faces loadVoxelChunk capacity w chunkX chunkZ chunkY).1
    = set_scene st.1.1
        (mkScene (children (scene st.1.1) ++ [MeshObject mesh])
                 (S (next_id (scene st.1.1)))).
Proof.
  unfold loadChunk. simpl.
  destruct (generate getCoord loadVoxelChunk capacity w chunkX chunkZ chunkY)
    as [[w1 t] vs].
  simpl. eexists. split; [reflexivity|]. simpl. done.
Qed.

(** C1.  Face culling.  For a voxel of the list and a face of the table,
    [findFaces] emits one quad (four vertices: 12 position and 12 normal
    components, 8 UV components; two triangles: the 6 indices of the four
    vertices just pushed) when the map has no voxel at [voxel + dir], and
    nothing when it has one; so the buffers built from a list of voxels
    hold four vertices and six indices per exposed face, and so does the
    mesh [loadChunk] returns, for the voxels its generation pass placed. *)
Theorem findFaces_emits_exposed_faces (w : VoxelWorld num) (voxels : list XYZ) :
  Forall (fun f => length (corners f) = 4%nat) faces ->
  (forall voxel f tile b, voxel ∈ voxels -> f ∈ faces ->
     let b' := face_step w voxel tile b f in
     match voxelFaceMap w !! (xyz_x voxel + (dir f).1.1,
                              xyz_y voxel + (dir f).1.2,
                              xyz_z voxel + (dir f).2) with
     | None =>
         let ndx := Z.of_nat (length (positions b)) / 3 in
         length (positions b') = (length (positions b) + 3 * 4)%nat /\
         length (normals b') = (length (normals b) + 3 * 4)%nat /\
         length (uvs b') = (length (uvs b) + 2 * 4)%nat /\
         indices b' = indices b ++ [ndx; ndx + 1; ndx + 2; ndx + 2; ndx + 1; ndx + 3]
     | Some _ => b' = b
     end) /\
  let b := mesh_buffers faces w voxels in
  let e := exposed_faces faces w voxels in
  vertex_count b = (4 * e)%nat /\
  length (positions b) = (3 * (4 * e))%nat /\
  length (normals b) = (3 * (4 * e))%nat /\
  length (uvs b) = (2 * (4 * e))%nat /\
  length (indices b) = (6 * e)%nat /\
  forall chunkX chunkZ chunkY mesh,
    let st := generate getCoord loadVoxelChunk capacity w chunkX chunkZ chunkY in
    mesh ∈ blocks (loadChunk getCoord faces loadVoxelChunk capacity w chunkX chunkZ chunkY).2 ->
    vertex_count (geometry mesh) = (4 * exposed_faces faces st.1.1 st.2)%nat /\
    length (indices (geometry mesh)) = (6 * exposed_faces faces st.1.1 st.2)%nat.
Proof.
  intros Hfs.
  assert (forall w' vs,
             let b := mesh_buffers faces w' vs in
             let e := exposed_faces faces w' vs in
             vertex_count b = (4 * e)%nat /\
             length (positions b) = (3 * (4 * e))%nat /\
             length (normals b) = (3 * (4 * e))%nat /\
             length (uvs b) = (2 * (4 * e))%nat /\
             length (indices b) = (6 * e)%nat) as Htotal.
  { intros w' vs.
    pose proof (mesh_fold_lengths w' vs (mkBuffers [] [] [] []) Hfs)
      as (Hp & Hn & Hu & Hi).
    simpl in *. unfold vertex_count, mesh_buffers.
    rewrite Hp, Hn, Hu, Hi.
    repeat split; try lia.
    symmetry. apply (Nat.div_unique _ 3 _ 0); lia. }
  split; [|split; [apply Htotal|split; [apply Htotal|split; [apply Htotal|
          split; [apply Htotal|split; [apply Htotal|]]]]]].
  - intros voxel f tile b _ Hf.
    rewrite List.Forall_forall in Hfs.
    assert (length (corners f) = 4%nat) as H4
        by (apply Hfs; by apply list_elem_of_In).
    pose proof (face_step_lengths w voxel tile b f H4) as (Hp & Hn & Hu & _).
    pose proof (face_step_exposed w voxel tile b f) as He.
    pose proof (face_step_unexposed w voxel tile b f) as Hne.
    unfold exposed, CoordinateMap3D_get in *. simpl in *.
    destruct (voxelFaceMap w !! _).
    + by apply Hne.
    + rewrite He by done. simpl.
      rewrite push_corners_positions, push_corners_normals, push_corners_uvs.
      rewrite length_app.
      assert (length (flat_map (corner_uv tile (uvRow f) (tileWidthRatio w)
                                  (tileHeightRatio w)) (corners f)) = 8%nat) as ->.
      { destruct (corners f) as [|? [|? [|? [|? [|? ?]]]]]; simpl in *; done. }
      rewrite H4. done.
  - intros chunkX chunkZ chunkY mesh st.
    destruct (loadChunk_result w chunkX chunkZ chunkY) as (mesh' & -> & Hgeometry & _).
    simpl. intros ->%list_elem_of_singleton. rewrite Hgeometry.
    split; apply Htotal.
Qed.

End Mesher.

(** The example of the specification: two stacked voxels have five exposed
    faces each, the two touching faces being culled; the mesh has 10 quads,
    that is 40 vertices and 20 triangles. *)
Example stacked_voxels_mesh :
  let b := mesh_buffers Sample.faces Sample.stacked Sample.stacked_voxels in
  exposed_faces Sample.faces Sample.stacked Sample.stacked_voxels = 10%nat /\
  vertex_count b = 40%nat /\
  length (indices b) = (3 * 20)%nat /\
  normals (findFaces Sample.faces Sample.stacked (mkXYZ 0 0 0) (mkBuffers [] [] [] []))
  = [-1; 0; 0; -1; 0; 0; -1; 0; 0; -1; 0; 0;
     1; 0; 0; 1; 0; 0; 1; 0; 0; 1; 0; 0;
     0; 1; 0; 0; 1; 0; 0; 1; 0; 0; 1; 0;
     0; 0; -1; 0; 0; -1; 0; 0; -1; 0; 0; -1;
     0; 0; 1; 0; 0; 1; 0; 0; 1; 0; 0; 1].
Proof. vm_compute. done. Qed.

(** The first quad of the grass voxel: tile 0 in atlas row 0, with ratios
    16/64 and 16/32. *)
Example stacked_voxels_first_quad :
  let b := findFaces Sample.faces Sample.stacked (mkXYZ 0 0 0) (mkBuffers [] [] [] []) in
  take 12 (positions b) = [0; 1; 0; 0; 0; 0; 0; 1; 1; 0; 0; 1] /\
  take 6 (indices b) = [0; 1; 2; 2; 1; 3] /\
  take 8 (uvs b)
  = [Some 0%Q; Some 1%Q; Some 0%Q; Some (1 # 2)%Q;
     Some (1 # 4)%Q; Some 1%Q; Some (1 # 4)%Q; Some (1 # 2)%Q].
Proof. vm_compute. done. Qed.

Lemma findFaces_emits_exposed_faces_witness :
  Forall (fun f => length (corners f) = 4%nat) Sample.faces /\
  vertex_count (mesh_buffers Sample.faces Sample.world1 Sample.voxels1)
  = (4 * exposed_faces Sample.faces Sample.world1 Sample.voxels1)%nat.
Proof.
  assert (Forall (fun f => length (corners f) = 4%nat) Sample.faces) as Hfaces
      by (repeat constructor).
  split; [exact Hfaces|].
  destruct (findFaces_emits_exposed_faces Sample.faces Sample.noise_x
              (Sample.loadVoxelChunk 2) 4 Sample.world1 Sample.voxels1 Hfaces)
    as (_ & Hvertices & _).
  exact Hvertices.
Defined.

(** ** The generation pass *)

Section Generation.
Context {num : Type} `{JsNumber num}.
Variable getCoord : num -> num -> num.
Variable loadVoxelChunk : Z -> list (num * Z).
Variable capacity : nat.

(** [get] after [set] answers the tile; other keys are not affected, and a
    key never set is absent. *)
Lemma CoordinateMap3D_get_set (m : gmap (Z * Z * Z) num) x y z v :
  CoordinateMap3D_get (CoordinateMap3D_set m x y z v) x y z = Some v.
Proof. apply lookup_insert_eq. Qed.

Lemma CoordinateMap3D_get_set_other (m : gmap (Z * Z * Z) num) x y z v x' y' z' :
  (x, y, z) <> (x', y', z') ->
  CoordinateMap3D_get (CoordinateMap3D_set m x y z v) x' y' z' = CoordinateMap3D_get m x' y' z'.
Proof. intros Hne. by apply lookup_insert_ne. Qed.

Lemma CoordinateMap3D_get_empty x y z :
  CoordinateMap3D_get (∅ : gmap (Z * Z * Z) num) x y z = None.
Proof. apply lookup_empty. Qed.

Lemma set_voxelFaceMap_id (w : VoxelWorld num) :
  set_voxelFaceMap w (voxelFaceMap w) = w.
Proof. by destruct w. Qed.

(** A sequence of [addBlock] calls, in closed form. *)
Lemma addBlock_fold (vs : list (XYZ * num)) (w : VoxelWorld num) t array :
  fold_left (fun st e => addBlock capacity (xyz_x e.1) (xyz_z e.1) st e.2 (xyz_y e.1))
            vs (w, t, array)
  = (set_voxelFaceMap w (write_voxels (voxelFaceMap w) vs),
     fold_left (addBlockToTree capacity) vs.*1 t,
     array ++ vs.*1).
Proof.
  revert w t array. induction vs as [|[p uv] vs IH]; intros w t array.
  - simpl. by rewrite set_voxelFaceMap_id, app_nil_r.
  - cbn [fold_left]. unfold addBlock at 2. rewrite IH. simpl.
    rewrite <- app_assoc. simpl. by destruct p.
Qed.

Lemma loadVoxel_fold xc zc y (st : GenState) :
  loadVoxel getCoord loadVoxelChunk capacity xc zc y st
  = fold_left (fun st e => addBlock capacity (xyz_x e.1) (xyz_z e.1) st e.2 (xyz_y e.1))
              (call ← loadVoxelChunk y; [(mkXYZ xc call.2 zc, call.1)]) st.
Proof.
  unfold loadVoxel. rewrite fold_left_bind. by apply fold_left_pointwise.
Qed.

(** The generation pass in closed form: the voxels of [chunk_voxels] are
    written to the map, inserted into the chunk's tree and listed, in the
    order of the loops. *)
Lemma generate_closed_form (w : VoxelWorld num) chunkX chunkZ chunkY :
  let bounds := chunk_bounds w chunkX chunkZ chunkY in
  let vs := chunk_voxels loadVoxelChunk (CHUNK_SIZE w)
              (Octree.x bounds) (Octree.y bounds) (Octree.z bounds) in
  generate getCoord loadVoxelChunk capacity w chunkX chunkZ chunkY
  = (set_voxelFaceMap w (write_voxels (voxelFaceMap w) vs),
     fold_left (addBlockToTree capacity) vs.*1 (Octree.new bounds),
     vs.*1).
Proof.
  intros bounds vs. unfold generate, loopChunk. fold bounds.
  rewrite <- (app_nil_l vs.*1) at 2.
  rewrite <- addBlock_fold. unfold vs, chunk_voxels, chunk_columns.
  rewrite !fold_left_bind.
  apply fold_left_pointwise. intros st i.
  rewrite fold_left_bind.
  apply fold_left_pointwise. intros st' k. simpl.
  rewrite loadVoxel_fold. by rewrite fold_left_bind.
Qed.

End Generation.

(** ** The spatial index *)

Module OctreeFacts.
Import Octree.

Lemma Node_all_ind (P : Node -> Prop) :
  (forall b its cs, Forall P cs -> P (mkNode b its cs)) -> forall n, P n.
Proof.
  intros HP. fix IH 1. intros [b its cs]. apply HP.
  induction cs as [|c cs IHcs]; constructor; [apply IH | exact IHcs].
Qed.

Lemma AABB_eqb_eq a b : AABB_eqb a b = true <-> a = b.
Proof.
  unfold AABB_eqb. destruct a, b; simpl.
  rewrite !andb_true_iff, !Z.eqb_eq. split.
  - intros (((((-> & ->) & ->) & ->) & ->) & ->). done.
  - intros [= -> -> -> -> -> ->]. done.
Qed.

Lemma elem_of_flat_map {A B} (f : A -> list B) (l : list A) (b : B) :
  b ∈ flat_map f l <-> exists a, a ∈ l /\ b ∈ f a.
Proof.
  rewrite list_elem_of_In, in_flat_map. setoid_rewrite list_elem_of_In. done.
Qed.

Lemma octant_of_elem boxes it o : octant_of boxes it = Some o -> o ∈ boxes.
Proof.
  induction boxes as [|b bs IH]; simpl; [done|].
  destruct (contains b it).
  - intros [= ->]. by left.
  - intros Ho. right. by apply IH.
Qed.

(** Splitting neither loses nor invents an item. *)
Lemma all_items_split b its a :
  a ∈ all_items (split b its) <-> a ∈ its.
Proof.
  unfold split. cbn [all_items]. rewrite elem_of_app, elem_of_flat_map.
  rewrite list_elem_of_filter. split.
  - intros [[_ Ha] | (c & Hc & Ha)]; [done|].
    apply list_elem_of_fmap in Hc as (o & -> & _). simpl in Ha.
    rewrite app_nil_r in Ha. by apply list_elem_of_filter in Ha as [_ Ha].
  - intros Ha. unfold assigned_to.
    destruct (octant_of (octants b) a) as [o|] eqn:Ho; [right|by left].
    exists (mkNode o (filter (fun it => assigned_to (octants b) (Some o) it = true) its) []).
    split.
    + apply list_elem_of_fmap. exists o. split; [done|]. by eapply octant_of_elem.
    + simpl. rewrite app_nil_r. apply list_elem_of_filter. split; [|done].
      unfold assigned_to. rewrite Ho. by apply AABB_eqb_eq.
Qed.

Lemma node_box_insert_node capacity it n :
  node_box (insert_node capacity it n) = node_box n.
Proof.
  destruct n as [b its cs]. simpl. destruct cs.
  - by destruct (_ <? _)%nat.
  - by destruct (existsb _ _).
Qed.

(** The tree keeps its box. *)
Lemma node_box_insert capacity t it : node_box (insert capacity t it) = node_box t.
Proof.
  unfold insert. destruct (intersects _ _); [|done]. apply node_box_insert_node.
Qed.

(** Below the root, an insertion stores the item and keeps the others. *)
Lemma all_items_insert_node capacity it n a :
  a ∈ all_items (insert_node capacity it n) <-> a = it \/ a ∈ all_items n.
Proof.
  revert n. apply (Node_all_ind (fun n => _ <-> _)). intros b its cs IH.
  destruct cs as [|c cs].
  - simpl. destruct (_ <? _)%nat.
    + rewrite all_items_split, !app_nil_r, elem_of_app, list_elem_of_singleton. tauto.
    + simpl. rewrite !app_nil_r, elem_of_app, list_elem_of_singleton. tauto.
  - cbn [insert_node]. destruct (existsb _ _) eqn:Hex.
    + cbn [all_items]. rewrite !elem_of_app.
      enough (a ∈ flat_map all_items
                (into_first (fun c => contains (node_box c) it)
                            (insert_node capacity it) (c :: cs))
              <-> a = it \/ a ∈ flat_map all_items (c :: cs)) by tauto.
      apply existsb_exists in Hex.
      revert IH Hex. generalize (c :: cs). clear c cs.
      induction l as [|c cs IHcs]; intros IH Hex.
      * destruct Hex as (? & [] & _).
      * apply Forall_cons in IH as [IHc IH]. cbn [into_first].
        destruct (contains (node_box c) it) eqn:Hc.
        -- cbn [flat_map]. rewrite !elem_of_app, IHc. tauto.
        -- cbn [flat_map]. rewrite !elem_of_app, IHcs; [tauto|done|].
           destruct Hex as (c' & [<-|Hin] & Hc'); [congruence|]. by exists c'.
    + cbn [all_items]. rewrite !elem_of_app, list_elem_of_singleton. tauto.
Qed.

(** [insert] stores an item that reaches into the box and keeps all others. *)
Lemma all_items_insert capacity t it a :
  intersects (node_box t) it = true ->
  a ∈ all_items (insert capacity t it) <-> a = it \/ a ∈ all_items t.
Proof.
  intros Hi. unfold insert. rewrite Hi. apply all_items_insert_node.
Qed.

(** A range query answers the stored items that intersect the query box. *)
Lemma query_all_items n q :
  query n q = filter (fun it => intersects it q = true) (all_items n).
Proof.
  revert n. apply (Node_all_ind (fun n => _ = _)). intros b its cs IH.
  cbn [query all_items]. rewrite filter_app. f_equal.
  induction IH as [|c cs Hc _ IHcs]; [done|].
  cbn [flat_map]. by rewrite filter_app, Hc, IHcs.
Qed.

(** An item outside a box misses every query box inside it. *)
Lemma outside_misses_inner_queries b it q :
  intersects b it = false -> contains b q = true -> intersects it q = false.
Proof.
  unfold intersects, contains. intros Hout Hin.
  rewrite !andb_true_iff, !Z.leb_le in Hin.
  rewrite !andb_false_iff, !Z.ltb_ge in Hout.
  apply not_true_is_false. rewrite !andb_true_iff, !Z.ltb_lt. lia.
Qed.

End OctreeFacts.

(** A tree over the box of chunk (0, 0) of size 2, capacity 4: the fifth cube
    splits the root; the eight cubes end up one per octant, and a query for
    the upper half of the box answers the four upper cubes. *)
Example octree_split :
  let box := Octree.mkAABB 0 (-2) 0 2 2 2 in
  let cubes := [mkXYZ 0 (-1) 0; mkXYZ 0 (-2) 0; mkXYZ 1 (-1) 0; mkXYZ 1 (-2) 0;
                mkXYZ 0 (-1) 1; mkXYZ 0 (-2) 1; mkXYZ 1 (-1) 1; mkXYZ 1 (-2) 1] in
  let t := fold_left (addBlockToTree 4) cubes (Octree.new box) in
  Octree.node_items t = [] /\
  length (Octree.node_children t) = 8%nat /\
  Forall (fun c => length (Octree.node_items c) = 1%nat) (Octree.node_children t) /\
  length (Octree.all_items t) = 8%nat /\
  length (Octree.query t (Octree.mkAABB 0 (-1) 0 2 1 2)) = 4%nat.
Proof. vm_compute. repeat split; repeat constructor. Qed.

(** C8.  An insertion outside the box of a spatial index.  [addBlockToTree]
    with a unit cube that lies fully outside the tree's box returns (the
    insertion is a total function), and returns the tree it was given, so
    every item stored before is still stored; whatever is inserted afterwards,
    no range query whose box lies within the tree's box answers the cube. *)
Theorem addBlockToTree_outside_bounds (capacity : nat) (tree : Octree.Node) (pos : XYZ) :
  let item := Octree.mkAABB (xyz_x pos) (xyz_y pos) (xyz_z pos) 1 1 1 in
  Octree.intersects (Octree.node_box tree) item = false ->
  addBlockToTree capacity tree pos = tree /\
  Octree.all_items (addBlockToTree capacity tree pos) = Octree.all_items tree /\
  forall (later : list XYZ) (q : Octree.AABB),
    Octree.contains (Octree.node_box tree) q = true ->
    item ∉ Octree.query
           (fold_left (addBlockToTree capacity) later (addBlockToTree capacity tree pos)) q.
Proof.
  intros item Hout.
  assert (addBlockToTree capacity tree pos = tree) as Hsame.
  { unfold addBlockToTree, Octree.insert. fold item. by rewrite Hout. }
  rewrite Hsame. repeat split.
  intros later q Hq Hin.
  rewrite OctreeFacts.query_all_items in Hin.
  apply list_elem_of_filter in Hin as [Hi _].
  by rewrite (OctreeFacts.outside_misses_inner_queries _ _ _ Hout Hq) in Hi.
Qed.

Lemma addBlockToTree_outside_bounds_witness :
  let tree := addBlockToTree 4 (Octree.new (Octree.mkAABB 0 (-2) 0 2 2 2)) (mkXYZ 0 (-1) 0) in
  addBlockToTree 4 tree (mkXYZ 0 0 0) = tree.
Proof.
  intros tree.
  apply (addBlockToTree_outside_bounds 4 tree (mkXYZ 0 0 0)).
  reflexivity.
Defined.

Section Chunks.
Context {num : Type} `{JsNumber num}.
Variable getCoord : num -> num -> num.
Variable faces : list (Face num).
Variable loadVoxelChunk : Z -> list (num * Z).
Variable capacity : nat.

Lemma node_box_addBlockToTree_fold (ps : list XYZ) (t : Octree.Node) :
  Octree.node_box (fold_left (addBlockToTree capacity) ps t) = Octree.node_box t.
Proof.
  apply (fold_left_preserves (fun t' => Octree.node_box t' = Octree.node_box t)); [done|].
  intros t' p <-. apply OctreeFacts.node_box_insert.
Qed.

(** C10.  The vertical layer of a chunk.  [loadChunk] without [chunkY], or
    with [chunkY = 0], is [loadChunk] with [chunkY = -1]: the box of the
    chunk's tree starts at [y = -CHUNK_SIZE] and is [CHUNK_SIZE] high.
    Whatever [chunkY] is passed, the layer the chunk is anchored at is not
    layer 0. *)
Theorem loadChunk_chunkY_never_zero (w : VoxelWorld num) (chunkX chunkZ : Z) :
  let load := loadChunk getCoord faces loadVoxelChunk capacity w chunkX chunkZ in
  load None = load (Some (-1)) /\
  load (Some 0) = load (Some (-1)) /\
  Octree.node_box (tree (load None).2)
  = Octree.mkAABB (chunkX * CHUNK_SIZE w) (- CHUNK_SIZE w) (chunkZ * CHUNK_SIZE w)
                  (CHUNK_SIZE w) (CHUNK_SIZE w) (CHUNK_SIZE w) /\
  forall chunkY,
    effective_chunkY chunkY <> 0 /\
    Octree.y (Octree.node_box (tree (load chunkY).2))
    = effective_chunkY chunkY * CHUNK_SIZE w.
Proof.
  intros load.
  assert (forall chunkY,
             Octree.node_box (tree (load chunkY).2) = chunk_bounds w chunkX chunkZ chunkY)
    as Hbox.
  { intros chunkY. unfold load.
    destruct (loadChunk_result faces getCoord loadVoxelChunk capacity w chunkX chunkZ chunkY)
      as (mesh & -> & _).
    rewrite generate_closed_form. simpl.
    apply node_box_addBlockToTree_fold. }
  repeat split.
  - rewrite Hbox. unfold chunk_bounds. simpl. f_equal; lia.
  - unfold effective_chunkY. destruct chunkY as [c|]; [|done].
    destruct (c =? 0) eqn:Hc; [done|]. by apply Z.eqb_neq.
  - by rewrite Hbox.
Qed.

End Chunks.

(** ** Determinism of [loadChunk] *)

Section Determinism.
Context {num : Type} `{JsNumber num}.
Variable getCoord : num -> num -> num.
Variable faces : list (Face num).
Variable loadVoxelChunk : Z -> list (num * Z).
Variable capacity : nat.

Lemma write_voxels_snoc (m : gmap (Z * Z * Z) num) vs e :
  write_voxels m (vs ++ [e]) = <[voxel_key e := e.2]> (write_voxels m vs).
Proof. unfold write_voxels. by rewrite fold_left_app. Qed.

Lemma write_voxels_lookup_other (m : gmap (Z * Z * Z) num) vs k :
  Forall (fun e => voxel_key e <> k) vs -> write_voxels m vs !! k = m !! k.
Proof.
  induction vs as [|e vs IH] using rev_ind; [done|].
  rewrite Forall_app, Forall_singleton. intros [Hvs He].
  rewrite write_voxels_snoc, lookup_insert_ne by done. by apply IH.
Qed.

Lemma write_voxels_lookup_written (m m' : gmap (Z * Z * Z) num) vs k :
  Exists (fun e => voxel_key e = k) vs ->
  write_voxels m vs !! k = write_voxels m' vs !! k.
Proof.
  induction vs as [|e vs IH] using rev_ind.
  - by intros ?%Exists_nil.
  - rewrite Exists_app, Exists_cons, Exists_nil, !write_voxels_snoc.
    destruct (decide (voxel_key e = k)) as [->|Hne].
    + intros _. by rewrite !lookup_insert_eq.
    + intros [Hvs|[?|[]]]; [|done]. rewrite !lookup_insert_ne by done. by apply IH.
Qed.

(** Writing the same voxels a second time changes nothing. *)
Lemma write_voxels_twice (m : gmap (Z * Z * Z) num) vs :
  write_voxels (write_voxels m vs) vs = write_voxels m vs.
Proof.
  apply map_eq. intros k.
  destruct (decide (Exists (fun e => voxel_key e = k) vs)) as [Hw|Hn].
  - by apply write_voxels_lookup_written.
  - apply write_voxels_lookup_other. by apply not_Exists_Forall in Hn; [|apply _].
Qed.

(** Every voxel of the pass is in the map afterwards. *)
Lemma write_voxels_present (m : gmap (Z * Z * Z) num) vs e :
  e ∈ vs -> is_Some (write_voxels m vs !! voxel_key e).
Proof.
  induction vs as [|e' vs IH] using rev_ind; [by intros ?%elem_of_nil|].
  rewrite elem_of_app, list_elem_of_singleton, write_voxels_snoc.
  destruct (decide (voxel_key e' = voxel_key e)) as [->|Hne].
  - intros _. rewrite lookup_insert_eq. by eexists.
  - intros [He| ->]; [|done]. rewrite lookup_insert_ne by done. by apply IH.
Qed.

(** The mesher reads the map and the two ratios of the world, nothing
    else. *)
Lemma mesh_buffers_ext (w1 w2 : VoxelWorld num) voxels :
  voxelFaceMap w1 = voxelFaceMap w2 ->
  tileWidthRatio w1 = tileWidthRatio w2 ->
  tileHeightRatio w1 = tileHeightRatio w2 ->
  mesh_buffers faces w1 voxels = mesh_buffers faces w2 voxels.
Proof.
  intros Hm Hw Hh. unfold mesh_buffers.
  apply fold_left_pointwise. intros b v. unfold findFaces. rewrite Hm.
  generalize (default nan (CoordinateMap3D_get (voxelFaceMap w2)
                             (xyz_x v) (xyz_y v) (xyz_z v))).
  intros tile.
  apply fold_left_pointwise. intros b' f. unfold face_step. rewrite Hm.
  destruct (CoordinateMap3D_get _ _ _ _); [done|].
  simpl.
  rewrite (fold_left_pointwise (push_corner w1 v tile (dir f) (uvRow f))
                               (push_corner w2 v tile (dir f) (uvRow f))); [done|].
  intros b'' p. unfold push_corner. by rewrite Hw, Hh.
Qed.

(** [loadChunk] in closed form. *)
Lemma loadChunk_closed_form (w : VoxelWorld num) chunkX chunkZ chunkY :
  let bounds := chunk_bounds w chunkX chunkZ chunkY in
  let vs := chunk_voxels loadVoxelChunk (CHUNK_SIZE w)
              (Octree.x bounds) (Octree.y bounds) (Octree.z bounds) in
  let w1 := set_voxelFaceMap w (write_voxels (voxelFaceMap w) vs) in
  let tenth := ndiv (of_Z 1) (of_Z 10) in
  let mesh := mkMesh (next_id (scene w)) (mesh_buffers faces w1 vs.*1) (imageTextures w)
                     (nsub (of_Z 0) tenth, of_Z 0, nsub (of_Z 0) tenth) in
  loadChunk getCoord faces loadVoxelChunk capacity w chunkX chunkZ chunkY
  = (set_scene w1 (mkScene (children (scene w) ++ [MeshObject mesh]) (S (next_id (scene w)))),
     mkChunk (fold_left (addBlockToTree capacity) vs.*1 (Octree.new bounds)) [mesh]).
Proof.
  intros bounds vs w1 tenth mesh. unfold loadChunk.
  rewrite generate_closed_form. reflexivity.
Qed.

(** C4.  Determinism of [loadChunk].  Two runs on the same chunk coordinate
    from worlds with the same chunk size, voxel map, texture and ratios
    (equal starting states in particular; the scenes may differ) place the
    same voxels in the same order, leave equal voxel maps, build equal
    trees and produce equal mesh buffers: equal position, normal, UV and
    index arrays.  The same holds when the second run starts from the world
    the first one left: loading a chunk a second time changes neither the
    voxel map nor the buffers. *)
Theorem loadChunk_deterministic (w1 w2 : VoxelWorld num) (chunkX chunkZ : Z)
        (chunkY : option Z) :
  same_terrain w1 w2 ->
  let load := fun w => loadChunk getCoord faces loadVoxelChunk capacity w chunkX chunkZ chunkY in
  let voxels := fun w => (generate getCoord loadVoxelChunk capacity w chunkX chunkZ chunkY).2 in
  (voxels w1 = voxels w2 /\
   voxelFaceMap (load w1).1 = voxelFaceMap (load w2).1 /\
   tree (load w1).2 = tree (load w2).2 /\
   geometry <$> blocks (load w1).2 = geometry <$> blocks (load w2).2) /\
  (voxels (load w1).1 = voxels w1 /\
   voxelFaceMap (load (load w1).1).1 = voxelFaceMap (load w1).1 /\
   tree (load (load w1).1).2 = tree (load w1).2 /\
   geometry <$> blocks (load (load w1).1).2 = geometry <$> blocks (load w1).2).
Proof.
  intros (Hcs & Hm & Ht & Hw & Hh) load voxels. unfold load, voxels.
  rewrite !generate_closed_form, !loadChunk_closed_form. simpl.
  unfold chunk_bounds. simpl. rewrite <- Hcs, <- Hm. split.
  - repeat split. f_equal. by apply mesh_buffers_ext.
  - rewrite write_voxels_twice. repeat split.
Qed.

End Determinism.

Lemma loadChunk_deterministic_witness :
  let w1 := Sample.world0 in
  let w2 := set_scene Sample.world0 (mkScene [] 7) in
  let load := fun w =>
    loadChunk Sample.noise_x Sample.faces (Sample.loadVoxelChunk 2) 4 w 0 0 None in
  same_terrain w1 w2 /\
  geometry <$> blocks (load w1).2 = geometry <$> blocks (load w2).2.
Proof.
  intros w1 w2 load.
  assert (same_terrain w1 w2) as Hsame by (repeat split).
  split; [exact Hsame|].
  destruct (loadChunk_deterministic Sample.noise_x Sample.faces (Sample.loadVoxelChunk 2) 4
              w1 w2 0 0 None Hsame) as [(_ & _ & _ & Hgeometry) _].
  exact Hgeometry.
Defined.

(** ** Elevation *)

Section Elevation.
Context {num : Type} `{JsNumber num}.

Lemma visit_placed (getCoord : num -> num -> num) (Tree : Type)
      (Tree_insert : Tree -> num * num * num * (num * num * num) -> Tree)
      (columns : list (Z * Z)) (st : World.State Tree) :
  placed (World.visit getCoord Tree Tree_insert columns st)
  = placed st ++ (columns ≫= column_blocks getCoord).
Proof.
  revert st. induction columns as [|c cs IH]; intros st.
  - simpl. by rewrite app_nil_r.
  - unfold World.visit in *. cbn [fold_left]. rewrite IH, bind_cons.
    rewrite app_assoc. f_equal.
    unfold placed, World.add_blocks, World.add_block, World.newBlock_at. simpl.
    rewrite !fmap_app. simpl. by rewrite <- app_assoc.
Qed.

(** C3 (as amended).  The elevation of a column is the noise value at the
    halved and rounded column coordinates, halved, rounded to one decimal,
    minus 5; [loadVoxel] and [add_blocks] compute this same value, which
    depends on the column and the noise field only.  [generateWorld]
    places, for each column it visits and in whatever order it visits them,
    a grass block at that elevation and a stone block one below. *)
Theorem elevation_is_function_of_column (getCoord : num -> num -> num) (xc zc : Z) :
  loadVoxel_elev getCoord xc zc = elevation_formula getCoord xc zc /\
  World.elev getCoord xc zc = elevation_formula getCoord xc zc /\
  (forall (Tree : Type) Tree_insert (columns : list (Z * Z)) (st : World.State Tree),
      placed (World.visit getCoord Tree Tree_insert columns st)
      = placed st ++ (columns ≫= column_blocks getCoord)) /\
  (forall (Tree : Type) Tree_new Tree_insert (scene : Scene num),
      placed (World.generateWorld getCoord Tree Tree_new Tree_insert scene)
      = [(2, 2); (1, 2); (2, 1); (1, 1)] ≫= column_blocks getCoord).
Proof.
  split; [reflexivity|]. split; [reflexivity|]. split.
  - intros. apply visit_placed.
  - intros. unfold World.generateWorld. by rewrite visit_placed.
Qed.

(** [loadVoxel] binds [elev] and does not use it: the column-fill policy is
    called with [addBlock] and the base y only, so the generation pass of
    [loadChunk] is the same for every noise field. *)
Lemma generate_ignores_noise (getCoord getCoord' : num -> num -> num)
      (loadVoxelChunk : Z -> list (num * Z)) (capacity : nat)
      (w : VoxelWorld num) (chunkX chunkZ : Z) (chunkY : option Z) :
  generate getCoord loadVoxelChunk capacity w chunkX chunkZ chunkY
  = generate getCoord' loadVoxelChunk capacity w chunkX chunkZ chunkY.
Proof. by rewrite !generate_closed_form. Qed.

End Elevation.

(** Columns (1, 1) and (2, 2) share the sample at (1, 1); a noise value of
    0.37 gives the elevation round(1.85) / 10 - 5 = -4.8. *)
Example elevation_samples :
  loadVoxel_elev Sample.noise_x 1 1 = loadVoxel_elev Sample.noise_x 2 2 /\
  loadVoxel_elev Sample.noise_x 3 0 = Some (-4 # 1)%Q /\
  loadVoxel_elev (fun _ _ => Some (37 # 100)%Q) 0 0 = Some (-24 # 5)%Q.
Proof. vm_compute. done. Qed.

(** C3 (as stated) fails: the elevation of a column is not a rounding of the
    noise value at that column.  Column (2, 0) has the same noise value, 2,
    in the field [noise_x] (the noise is the first coordinate) and in the
    field that is 2 everywhere, and has elevation -4.5 in the first (the
    sample is taken at (1, 0)) and -4 in the second. *)
Lemma elevation_not_rounding_of_noise_at_column :
  ~ exists rounding : QNum.t -> QNum.t,
      forall (getCoord : QNum.t -> QNum.t -> QNum.t) (xc zc : Z),
        loadVoxel_elev getCoord xc zc
        = nsub (rounding (getCoord (of_Z xc) (of_Z zc))) (of_Z 5).
Proof.
  intros [rounding Hr].
  pose proof (Hr Sample.noise_x 2 0) as H1.
  pose proof (Hr (Sample.noise_flat 2) 2 0) as H2.
  vm_compute in H1, H2. congruence.
Qed.

(** ** The scene *)

Section SceneFacts.
Context {num : Type}.
Implicit Types (l : list (Object3D num)) (o : Object3D num) (id : nat).

Lemma remove_first_sublist id l : remove_first id l `sublist_of` l.
Proof.
  induction l as [|o l IH]; simpl; [done|].
  destruct (object_id o =? id)%nat.
  - by apply sublist_cons.
  - by apply sublist_skip.
Qed.

Lemma remove_first_keeps id l o :
  o ∈ l -> object_id o <> id -> o ∈ remove_first id l.
Proof.
  intros Ho Hne. induction l as [|o' l IH]; simpl; [done|].
  apply elem_of_cons in Ho as [<-|Ho].
  - apply Nat.eqb_neq in Hne. rewrite Hne. by left.
  - destruct (object_id o' =? id)%nat; [done|]. right. by apply IH.
Qed.

Lemma remove_first_removes id l o :
  NoDup (object_id <$> l) -> o ∈ remove_first id l -> object_id o <> id.
Proof.
  induction l as [|o' l IH]; simpl; [by intros _ ?%elem_of_nil|].
  rewrite NoDup_cons. intros [Hfresh Hl].
  destruct (object_id o' =? id)%nat eqn:Hid.
  - apply Nat.eqb_eq in Hid. subst id. intros Ho Heq. apply Hfresh.
    rewrite <- Heq. by apply list_elem_of_fmap_2.
  - apply Nat.eqb_neq in Hid. intros [->|Ho]%elem_of_cons; [done|]. by apply IH.
Qed.

Lemma remove_meshes_next_id bs (s : Scene num) :
  next_id (remove_meshes bs s) = next_id s.
Proof.
  unfold remove_meshes.
  by apply (fold_left_preserves (fun s' => next_id s' = next_id s)).
Qed.

Lemma remove_meshes_sublist bs (s : Scene num) :
  children (remove_meshes bs s) `sublist_of` children s.
Proof.
  unfold remove_meshes.
  apply (fold_left_preserves (fun s' => children s' `sublist_of` children s)); [done|].
  intros s' b Hs. etrans; [|exact Hs]. apply remove_first_sublist.
Qed.

Lemma remove_meshes_keeps bs (s : Scene num) o :
  o ∈ children s -> (forall b, b ∈ bs -> mesh_id b <> object_id o) ->
  o ∈ children (remove_meshes bs s).
Proof.
  revert s. induction bs as [|b bs IH]; intros s Ho Hbs; [done|].
  simpl. apply IH.
  - apply remove_first_keeps; [done|]. intros Heq. eapply Hbs; [by left|done].
  - intros b' Hb'. apply Hbs. by right.
Qed.

Lemma remove_meshes_removes bs (s : Scene num) o b :
  NoDup (object_id <$> children s) -> b ∈ bs ->
  o ∈ children (remove_meshes bs s) -> object_id o <> mesh_id b.
Proof.
  revert s. induction bs as [|b' bs IH]; intros s Hnd Hb Ho; [by apply elem_of_nil in Hb|].
  simpl in Ho.
  assert (NoDup (object_id <$> children (scene_remove s (MeshObject b')))) as Hnd'.
  { eapply sublist_NoDup; [exact Hnd|]. apply fmap_sublist, remove_first_sublist. }
  apply elem_of_cons in Hb as [->|Hb].
  - apply (remove_first_removes (mesh_id b') (children s)); [done|].
    eapply elem_of_sublist; [exact Ho|].
    apply (remove_meshes_sublist bs (scene_remove s (MeshObject b'))).
  - by apply (IH (scene_remove s (MeshObject b'))).
Qed.

End SceneFacts.

(** ** The chunk streamer *)

Section RenderFacts.
Context {num : Type} `{JsNumber num}.
Variable floorMultiple : num -> num -> num.
Variable CHUNK_SIZE_main : Z.
Variable octrees_get : gmap (Z * Z) (ChunkData num) -> num -> num -> option (ChunkData num).

Implicit Types (g : Game num) (s : Scene num) (map : gmap (Z * Z) (ChunkData num)).

Lemma with_store_scene_id g : with_store_scene g (octrees g) (scene (world g)) = g.
Proof. destruct g as [[] ? ? ? ? ?]. done. Qed.

Lemma remove_fold_scene bs g o s :
  fold_left (fun g b => set_game_scene g (scene_remove (scene (world g)) (MeshObject b)))
            bs (with_store_scene g o s)
  = with_store_scene g o (remove_meshes bs s).
Proof.
  revert s. induction bs as [|b bs IH]; intros s; [done|].
  simpl. rewrite <- IH. done.
Qed.

Lemma delete_step_with (x y : num) (r : Z) i chunk g map s :
  delete_step x y r i chunk (with_store_scene g (Some map) s)
  = if out_of_radius x y r i
    then with_store_scene g (Some (delete i map)) (remove_meshes (blocks chunk) s)
    else with_store_scene g (Some map) s.
Proof.
  unfold delete_step. destruct (out_of_radius x y r i); [|done].
  by rewrite remove_fold_scene.
Qed.

Lemma delete_fold_spec (x y : num) (r : Z) g0 map0 (m : gmap (Z * Z) (ChunkData num)) :
  octrees g0 = Some map0 ->
  exists map' s,
    map_fold (delete_step x y r) g0 m = with_store_scene g0 (Some map') s /\
    unloaded x y r g0 map0 m map' s.
Proof.
  intros Hmap0.
  apply (map_fold_weak_ind
           (fun g m => exists map' s, g = with_store_scene g0 (Some map') s /\
                                      unloaded x y r g0 map0 m map' s)).
  - exists map0, (scene (world g0)). rewrite <- Hmap0, with_store_scene_id.
    split; [done|]. split; [|split; [|split; [|split]]]; done.
  - intros i chunk m' g Hi (map' & s & -> & Hstore & Hid & Hsub & Hkeep & Hrem).
    rewrite delete_step_with.
    destruct (out_of_radius x y r i) eqn:Hout.
    + exists (delete i map'), (remove_meshes (blocks chunk) s).
      split; [done|]. split; [|split; [|split; [|split]]].
      * intros k. destruct (decide (k = i)) as [->|Hne].
        -- rewrite lookup_delete_eq, lookup_insert_eq, Hout.
           by rewrite bool_decide_eq_true_2.
        -- rewrite lookup_delete_ne, lookup_insert_ne by done. apply Hstore.
      * by rewrite remove_meshes_next_id.
      * etrans; [apply remove_meshes_sublist|done].
      * intros o Ho Hother. apply remove_meshes_keeps.
        -- apply Hkeep; [done|]. intros k c b Hk. apply (Hother k c b).
           rewrite lookup_insert_ne; [done|]. congruence.
        -- intros b Hb. apply (Hother i chunk b); [|done..].
           by rewrite lookup_insert_eq.
      * intros Hnd k c b o Hk Hko Hb Ho.
        destruct (decide (k = i)) as [->|Hne].
        -- rewrite lookup_insert_eq in Hk. injection Hk as <-.
           apply (remove_meshes_removes (blocks chunk) s); [|done..].
           eapply sublist_NoDup; [exact Hnd|]. by apply fmap_sublist.
        -- rewrite lookup_insert_ne in Hk by done.
           apply (Hrem Hnd k c b o); [done..|].
           eapply elem_of_sublist; [exact Ho|]. apply remove_meshes_sublist.
    + exists map', s. split; [done|]. split; [|split; [|split; [|split]]]; try done.
      * intros k. destruct (decide (k = i)) as [->|Hne].
        -- rewrite lookup_insert_eq, Hout, andb_false_r.
           rewrite Hstore, Hi. by rewrite bool_decide_eq_false_2 by (by intros []).
        -- rewrite lookup_insert_ne by done. apply Hstore.
      * intros o Ho Hother. apply Hkeep; [done|].
        intros k c b Hk. apply (Hother k c b).
        rewrite lookup_insert_ne; [done|]. congruence.
      * intros Hnd k c b o Hk Hko.
        destruct (decide (k = i)) as [->|Hne]; [congruence|].
        rewrite lookup_insert_ne in Hk by done. by apply (Hrem Hnd k c b o).
Qed.

(** A pass that finds every chunk within the radius changes nothing. *)
Lemma delete_fold_id (x y : num) (r : Z) g0 (m : gmap (Z * Z) (ChunkData num)) :
  (forall k, is_Some (m !! k) -> out_of_radius x y r k = false) ->
  map_fold (delete_step x y r) g0 m = g0.
Proof.
  apply (map_fold_weak_ind
           (fun g m => (forall k, is_Some (m !! k) -> out_of_radius x y r k = false)
                       -> g = g0)); [done|].
  intros i chunk m' g Hi IH Hin. unfold delete_step.
  rewrite (Hin i) by (by rewrite lookup_insert_eq).
  apply IH. intros k Hk. apply Hin. rewrite lookup_insert_ne; [done|].
  intros <-. rewrite Hi in Hk. by destruct Hk.
Qed.

Lemma for_each_running {S A} (l : list A) (body : A -> S -> Flow S) (s : S) :
  (forall a, body a s = Running s \/ body a s = Returned s) ->
  flow_state (for_each l body s) = s /\
  (for_each l body s = Running s \/ for_each l body s = Returned s).
Proof.
  intros Hbody. unfold for_each.
  apply (fold_left_preserves
           (fun f => flow_state f = s /\ (f = Running s \/ f = Returned s))).
  - split; [done|by left].
  - intros f a [_ [-> | ->]]; [|split; [done|by right]].
    destruct (Hbody a) as [-> | ->]; split; auto.
Qed.

(** [addInRadius] changes nothing: its loops only probe the store. *)
Lemma addInRadius_id r g :
  addInRadius floorMultiple CHUNK_SIZE_main octrees_get r g = g.
Proof.
  unfold addInRadius.
  apply for_each_running. intros j.
  apply for_each_running. intros i.
  unfold addInRadius_body. destruct (octrees g) as [map|]; [|by right].
  left. by destruct (octrees_get map _ _).
Qed.

End RenderFacts.

Section Streamer.
Context {num : Type} `{JsNumber num}.
Variable floorMultiple : num -> num -> num.
Variable CHUNK_SIZE_main : Z.
Variable octrees_get : gmap (Z * Z) (ChunkData num) -> num -> num -> option (ChunkData num).

Implicit Types (g : Game num).

Local Abbreviation viewer := (viewer_coordinate floorMultiple CHUNK_SIZE_main).
Local Abbreviation unload := (deleteIfOutRadius floorMultiple CHUNK_SIZE_main).
Local Abbreviation fill := (addInRadius floorMultiple CHUNK_SIZE_main octrees_get).

(** The tick changes the counter and nothing else. *)
Lemma chunkRenderLoop_frame g :
  world (chunkRenderLoop g) = world g /\
  octrees (chunkRenderLoop g) = octrees g /\
  camera_x (chunkRenderLoop g) = camera_x g /\
  camera_z (chunkRenderLoop g) = camera_z g /\
  renderDistance (chunkRenderLoop g) = renderDistance g.
Proof. unfold chunkRenderLoop. by destruct (counter g <=? 0). Qed.

Lemma chunkRenderLoop_iter_frame (n : nat) g :
  world (Nat.iter n chunkRenderLoop g) = world g /\
  octrees (Nat.iter n chunkRenderLoop g) = octrees g /\
  camera_x (Nat.iter n chunkRenderLoop g) = camera_x g /\
  camera_z (Nat.iter n chunkRenderLoop g) = camera_z g /\
  renderDistance (Nat.iter n chunkRenderLoop g) = renderDistance g.
Proof.
  induction n as [|n (Hw & Ho & Hx & Hz & Hr)]; [done|].
  simpl. destruct (chunkRenderLoop_frame (Nat.iter n chunkRenderLoop g))
    as (-> & -> & -> & -> & ->). done.
Qed.

(** [deleteIfOutRadius] in terms of its result. *)
Lemma deleteIfOutRadius_spec (r : Z) g map :
  octrees g = Some map ->
  exists map' s,
    unload r g = with_store_scene g (Some map') s /\
    unloaded (viewer (camera_x g)) (viewer (camera_z g)) (r + 1) g map map map' s.
Proof.
  intros Hmap. unfold deleteIfOutRadius. rewrite Hmap.
  by apply delete_fold_spec.
Qed.

Lemma deleteIfOutRadius_idempotent (r : Z) g :
  unload r (unload r g) = unload r g.
Proof.
  destruct (octrees g) as [map|] eqn:Hmap.
  - destruct (deleteIfOutRadius_spec r g map Hmap) as (map' & s & -> & Hstore & _).
    unfold deleteIfOutRadius at 1. simpl.
    apply delete_fold_id. intros k [chunk Hk].
    rewrite Hstore in Hk.
    destruct (out_of_radius _ _ _ k); [|done].
    case_bool_decide as Hsome; simpl in Hk; [done|].
    destruct Hsome. by eexists.
  - assert (unload r g = g) as Hsame by (unfold deleteIfOutRadius; by rewrite Hmap).
    by rewrite !Hsame.
Qed.

(** C5 (as amended).  [deleteIfOutRadius(r)] unloads by the radius [r + 1]:
    with [(x, y)] the viewer coordinate the code computes
    ([floorMultiple(position, CHUNK_SIZE) / 8] per axis), it deletes from
    the store every chunk [(cx, cy)] for which
    [x < cx || x >= cx + r + 1 || y < cy || y >= cy + r + 1] and keeps the
    entries of all other chunks as they are; nothing else of the game
    changes but the scene, which loses objects only: in a scene whose
    objects have distinct ids no mesh of a deleted chunk is left, and every
    object that is not such a mesh stays.  The tick itself does not call
    [deleteIfOutRadius]: it leaves store and scene as they are. *)
Theorem deleteIfOutRadius_unloads (r : Z) g map :
  octrees g = Some map ->
  let x := viewer (camera_x g) in
  let y := viewer (camera_z g) in
  (exists map' s,
      unload r g = with_store_scene g (Some map') s /\
      (forall c, map' !! c = if out_of_radius x y (r + 1) c then None else map !! c) /\
      children s `sublist_of` children (scene (world g)) /\
      (NoDup (object_id <$> children (scene (world g))) ->
       forall c chunk b o,
         map !! c = Some chunk -> out_of_radius x y (r + 1) c = true ->
         b ∈ blocks chunk -> o ∈ children s -> object_id o <> mesh_id b) /\
      (forall o, o ∈ children (scene (world g)) ->
                 (forall c chunk b,
                     map !! c = Some chunk -> out_of_radius x y (r + 1) c = true ->
                     b ∈ blocks chunk -> mesh_id b <> object_id o) ->
                 o ∈ children s)) /\
  unloads_outside (unload r) x y (r + 1) g /\
  octrees (chunkRenderLoop g) = octrees g /\
  world (chunkRenderLoop g) = world g.
Proof.
  intros Hmap x y.
  destruct (deleteIfOutRadius_spec r g map Hmap)
    as (map' & s & Hg & Hstore & _ & Hsub & Hkeep & Hrem).
  assert (forall c, map' !! c = if out_of_radius x y (r + 1) c then None else map !! c)
    as Hstore'.
  { intros c. rewrite Hstore. fold x y.
    destruct (out_of_radius x y (r + 1) c); [|by rewrite andb_false_r].
    rewrite andb_true_r. case_bool_decide as Hsome; [done|].
    by apply eq_None_not_Some. }
  split; [|split; [|by destruct (chunkRenderLoop_frame g) as (-> & -> & _)]].
  - exists map', s. repeat split; done.
  - intros c _ Hout (map'' & chunk & Hmap'' & Hc).
    rewrite Hg in Hmap''. simpl in Hmap''. injection Hmap'' as <-.
    by rewrite Hstore', Hout in Hc.
Qed.

(** C6 (as amended).  Neither [addInRadius] nor the tick loads a chunk:
    [addInRadius(r)] walks the window of [r] by [r] coordinates anchored at
    the viewer coordinate and probes the store, and the call that would
    load a missing chunk is disabled, so it returns the game unchanged; the
    tick leaves the store and the world (voxel map and scene) as they
    are. *)
Theorem addInRadius_loads_nothing (r : Z) g :
  fill r g = g /\
  octrees (chunkRenderLoop g) = octrees g /\
  world (chunkRenderLoop g) = world g.
Proof.
  split; [apply addInRadius_id|].
  by destruct (chunkRenderLoop_frame g) as (-> & -> & _).
Qed.

(** C7.  Re-ticking is a no-op.  After a tick, any number of further ticks
    with the camera and the radius as they are leave the store of loaded
    chunks and the world, its scene included, equal to those after the
    first tick.  The two steps the tick is written to run are idempotent as
    well: a second [deleteIfOutRadius] after [addInRadius] changes
    nothing. *)
Theorem chunkRenderLoop_idempotent (n : nat) (r : Z) g :
  let g1 := chunkRenderLoop g in
  let g2 := Nat.iter n chunkRenderLoop g1 in
  octrees g2 = octrees g1 /\
  world g2 = world g1 /\
  scene (world g2) = scene (world g1) /\
  (camera_x g2, camera_z g2, renderDistance g2)
  = (camera_x g, camera_z g, renderDistance g) /\
  fill r (unload r (fill r (unload r g))) = fill r (unload r g).
Proof.
  intros g1 g2. unfold g2, g1.
  destruct (chunkRenderLoop_iter_frame n (chunkRenderLoop g)) as (-> & -> & -> & -> & ->).
  destruct (chunkRenderLoop_frame g) as (_ & _ & -> & -> & ->).
  repeat split.
  by rewrite !addInRadius_id, deleteIfOutRadius_idempotent.
Qed.

(** C9 (as amended).  Unloading does not touch the voxel map.  Take the
    world a [loadChunk] of chunk [(chunkX, chunkZ)] leaves and any game
    around it that has the chunk in its store; after [deleteIfOutRadius]
    the chunk's store entry (tree and meshes) is deleted when the chunk is
    out of the radius, while the voxel map is the one [loadChunk] left:
    every voxel the generation pass placed is still present in it. *)
Theorem deleteIfOutRadius_keeps_voxels
        (getCoord : num -> num -> num) (faces : list (Face num))
        (loadVoxelChunk : Z -> list (num * Z)) (capacity : nat)
        (w : VoxelWorld num) (chunkX chunkZ : Z) (chunkY : option Z)
        (x z : num) (map : gmap (Z * Z) (ChunkData num)) (counter r : Z) :
  let l := loadChunk getCoord faces loadVoxelChunk capacity w chunkX chunkZ chunkY in
  let voxels := (generate getCoord loadVoxelChunk capacity w chunkX chunkZ chunkY).2 in
  let g := mkGame l.1 x z (Some (<[(chunkX, chunkZ) := l.2]> map)) counter r in
  let g' := unload r g in
  voxelFaceMap (world g') = voxelFaceMap l.1 /\
  (forall p, p ∈ voxels ->
             is_Some (voxelFaceMap (world g') !! (xyz_x p, xyz_y p, xyz_z p))) /\
  exists map',
    octrees g' = Some map' /\
    map' !! (chunkX, chunkZ)
    = if out_of_radius (viewer x) (viewer z) (r + 1) (chunkX, chunkZ)
      then None else Some l.2.
Proof.
  intros l voxels g g'.
  destruct (deleteIfOutRadius_spec r g _ eq_refl) as (map' & s & Hg & Hstore & _).
  fold g' in Hg.
  assert (voxelFaceMap (world g') = voxelFaceMap l.1) as Hvoxels by (by rewrite Hg).
  split; [done|]. split.
  - intros p Hp. rewrite Hvoxels. unfold l, voxels in *.
    rewrite loadChunk_closed_form. rewrite generate_closed_form in Hp. simpl in *.
    apply list_elem_of_fmap in Hp as (e & -> & He).
    by apply (write_voxels_present _ _ e).
  - exists map'. rewrite Hg. split; [done|].
    rewrite Hstore. simpl. rewrite lookup_insert_eq.
    rewrite bool_decide_eq_true_2 by (by eexists). done.
Qed.

End Streamer.

Lemma deleteIfOutRadius_unloads_witness :
  let g := Sample.game 24 24 0 in
  octrees g = Some {[ (0, 0) := Sample.loaded8.2 ]} /\
  octrees (chunkRenderLoop g) = octrees g.
Proof.
  intros g. split; [reflexivity|].
  apply (deleteIfOutRadius_unloads Sample.floorMultiple 8 1 g
           {[ (0, 0) := Sample.loaded8.2 ]}).
  reflexivity.
Defined.

(** C5 (as stated) fails.  Chunk (0, 0) is loaded, the radius is 1 and the
    chunk size 8.  With the camera at (24, 24), chunk coordinate (3, 3), a tick
    that is due (counter 0) does not unload the chunk.  With the camera at
    (8, 0), chunk coordinate (1, 0) and so outside [0, 1) x [0, 1),
    [deleteIfOutRadius(1)] itself keeps the chunk, its radius being 2. *)
Lemma tick_does_not_unload :
  let far := Sample.game 24 24 0 in
  let near := Sample.game 8 0 0 in
  (viewer_coordinate Sample.floorMultiple 8 (camera_x far),
   viewer_coordinate Sample.floorMultiple 8 (camera_z far)) = (Sample.n 3, Sample.n 3) /\
  ~ unloads_outside chunkRenderLoop (Sample.n 3) (Sample.n 3) 1 far /\
  (viewer_coordinate Sample.floorMultiple 8 (camera_x near),
   viewer_coordinate Sample.floorMultiple 8 (camera_z near)) = (Sample.n 1, Sample.n 0) /\
  ~ unloads_outside (Sample.unload 1) (Sample.n 1) (Sample.n 0) 1 near.
Proof.
  assert (forall x z, loaded (Sample.game x z 0) (0, 0)) as Hloaded.
  { intros x z. exists {[ (0, 0) := Sample.loaded8.2 ]}, Sample.loaded8.2.
    split; [reflexivity|]. apply lookup_singleton_eq. }
  intros far near.
  split; [reflexivity|]. split; [|split; [reflexivity|]].
  - intros Hclaim. apply (Hclaim (0, 0)); [apply Hloaded|reflexivity|].
    exists {[ (0, 0) := Sample.loaded8.2 ]}, Sample.loaded8.2.
    split; [reflexivity|]. apply lookup_singleton_eq.
  - intros Hclaim. apply (Hclaim (0, 0)); [apply Hloaded|reflexivity|].
    exists {[ (0, 0) := Sample.loaded8.2 ]}, Sample.loaded8.2.
    split; [|apply lookup_singleton_eq].
    vm_compute. reflexivity.
Qed.

(** C6 (as stated) fails.  Nothing is loaded, the camera is at (0, 0) and the
    radius is 1, so the window is the single coordinate (0, 0).  After a tick
    that is due, and after [addInRadius(1)] itself, chunk (0, 0) is not
    loaded. *)
Lemma tick_does_not_load :
  let g := Sample.game0 0 0 0 in
  (viewer_coordinate Sample.floorMultiple 8 (camera_x g),
   viewer_coordinate Sample.floorMultiple 8 (camera_z g)) = (Sample.n 0, Sample.n 0) /\
  ~ loads_window chunkRenderLoop [(0, 0)] g /\
  ~ loads_window (Sample.fill 1) [(0, 0)] g.
Proof.
  intros g. split; [reflexivity|]. split.
  - intros Hclaim. destruct (Hclaim (0, 0)) as (map & chunk & Hmap & Hc); [by left|].
    assert (octrees (chunkRenderLoop g) = Some ∅) as Hempty by reflexivity.
    rewrite Hempty in Hmap. injection Hmap as <-. by rewrite lookup_empty in Hc.
  - intros Hclaim. destruct (Hclaim (0, 0)) as (map & chunk & Hmap & Hc); [by left|].
    assert (octrees (Sample.fill 1 g) = Some ∅) as Hempty by (vm_compute; reflexivity).
    rewrite Hempty in Hmap. injection Hmap as <-. by rewrite lookup_empty in Hc.
Qed.

(** C9 (as stated) fails.  Chunk (0, 0) of the sample world is loaded and the
    camera is far away.  After [deleteIfOutRadius(1)] the chunk is not loaded
    any more and its mesh is out of the scene, and the voxel at (0, -1, 0),
    which the chunk's generation placed with tile 0, is still in the voxel
    map. *)
Lemma unload_leaves_voxel_keys :
  let g := Sample.game 24 24 0 in
  let g' := Sample.unload 1 g in
  loaded g (0, 0) /\
  length (children (scene (world g))) = 2%nat /\
  length (children (scene (world g'))) = 1%nat /\
  ~ loaded g' (0, 0) /\
  voxelFaceMap (world g') !! (0, -1, 0) = Some (Sample.n 0) /\
  ~ voxels_follow_chunk g' (0, 0) Sample.voxels8.
Proof.
  intros g g'.
  assert (octrees g = Some {[ (0, 0) := Sample.loaded8.2 ]}) as Hstore by reflexivity.
  assert (octrees g' = Some ∅) as Hempty by (vm_compute; reflexivity).
  assert (voxelFaceMap (world g') !! (0, -1, 0) = Some (Sample.n 0)) as Hafter
      by (vm_compute; reflexivity).
  assert (length (children (scene (world g))) = 2%nat) as Hscene
      by (vm_compute; reflexivity).
  assert (length (children (scene (world g'))) = 1%nat) as Hscene'
      by (vm_compute; reflexivity).
  assert (mkXYZ 0 (-1) 0 ∈ Sample.voxels8) as Hvoxel
      by (apply list_elem_of_In; vm_compute; by left).
  clearbody g' g.
  assert (~ loaded g' (0, 0)) as Hgone.
  { intros (map & chunk & Hmap & Hc).
    rewrite Hempty in Hmap. injection Hmap as <-. by rewrite lookup_empty in Hc. }
  split; [|split; [done|split; [done|split; [done|split; [done|]]]]].
  - exists {[ (0, 0) := Sample.loaded8.2 ]}, Sample.loaded8.2.
    split; [done|]. apply lookup_singleton_eq.
  - intros Hclaim. specialize (Hclaim Hgone _ Hvoxel). simpl in Hclaim. congruence.
Qed.

(** ** Texture coordinates *)

Section TextureCoordinates.
Context {num : Type} `{JsNumber num}.
Variable getCoord : num -> num -> num.
Variable faces : list (Face num).
Variable loadVoxelChunk : Z -> list (num * Z).
Variable capacity : nat.
Variable floorMultiple : num -> num -> num.
Variable CHUNK_SIZE_main : Z.
Variable octrees_get : gmap (Z * Z) (ChunkData num) -> num -> num -> option (ChunkData num).

Lemma fold_face_step_uvs (w : VoxelWorld num) voxel tile fs b :
  uvs (fold_left (face_step w voxel tile) fs b)
  = uvs b ++
    flat_map
      (fun f =>
         if exposed w voxel f
         then flat_map (corner_uv tile (uvRow f) (tileWidthRatio w) (tileHeightRatio w))
                       (corners f)
         else [])
      fs.
Proof.
  revert b. induction fs as [|f fs IH]; intros b; simpl.
  - by rewrite app_nil_r.
  - rewrite IH. destruct (exposed w voxel f) eqn:He.
    + rewrite face_step_exposed by done. simpl.
      by rewrite push_corners_uvs, <- app_assoc.
    + by rewrite face_step_unexposed.
Qed.

(** The ratios of the world are those of the game's world after every step
    of the streamer. *)
Lemma deleteIfOutRadius_world (r : Z) (g : Game num) :
  exists s,
    world (deleteIfOutRadius floorMultiple CHUNK_SIZE_main r g) = set_scene (world g) s.
Proof.
  destruct (octrees g) as [map|] eqn:Hmap.
  - destruct (deleteIfOutRadius_spec floorMultiple CHUNK_SIZE_main r g map Hmap)
      as (map' & s & -> & _).
    by exists s.
  - exists (scene (world g)). unfold deleteIfOutRadius. rewrite Hmap.
    by destruct (world g).
Qed.

(** C2.  Texture coordinates.  For a voxel whose tile in the map is
    [tileId], [findFaces] pushes, for every corner of every exposed face,
    the two numbers [(tileId + cornerU) * tileWidthRatio] and
    [1 - (uvRow + 1 - cornerV) * tileHeightRatio], in the order of the face
    table and of the corners.  The two ratios are set by the constructor to
    the tile size divided by the image width and by the image height, and
    neither [loadChunk] nor a step of the streamer changes them. *)
Theorem findFaces_uv_coordinates (w : VoxelWorld num) (voxel : XYZ) (tileId : num)
        (b : MeshBuffers num) :
  voxelFaceMap w !! (xyz_x voxel, xyz_y voxel, xyz_z voxel) = Some tileId ->
  uvs (findFaces faces w voxel b) = uvs b ++ voxel_uvs faces w voxel tileId /\
  (forall o : VoxelContructorOpts num,
      tileWidthRatio (constructor o) = ndiv (uv_size (opt_uv o)) (uv_imageWidth (opt_uv o)) /\
      tileHeightRatio (constructor o)
      = ndiv (uv_size (opt_uv o)) (uv_imageHeight (opt_uv o))) /\
  (forall chunkX chunkZ chunkY,
      let w' := (loadChunk getCoord faces loadVoxelChunk capacity w chunkX chunkZ chunkY).1 in
      tileWidthRatio w' = tileWidthRatio w /\ tileHeightRatio w' = tileHeightRatio w) /\
  (forall (g : Game num) (r : Z),
      let after := fun step : Game num -> Game num =>
        (tileWidthRatio (world (step g)), tileHeightRatio (world (step g))) in
      let before := (tileWidthRatio (world g), tileHeightRatio (world g)) in
      after (deleteIfOutRadius floorMultiple CHUNK_SIZE_main r) = before /\
      after (addInRadius floorMultiple CHUNK_SIZE_main octrees_get r) = before /\
      after chunkRenderLoop = before).
Proof.
  intros Htile. split; [|split; [done|split]].
  - unfold findFaces, CoordinateMap3D_get. rewrite Htile. simpl.
    apply fold_face_step_uvs.
  - intros chunkX chunkZ chunkY. by rewrite loadChunk_closed_form.
  - intros g r after before. unfold after, before.
    destruct (deleteIfOutRadius_world r g) as [s ->].
    rewrite addInRadius_id.
    destruct (chunkRenderLoop_frame g) as (-> & _). done.
Qed.

End TextureCoordinates.

Lemma findFaces_uv_coordinates_witness :
  let voxel := mkXYZ 0 (-1) 0 in
  let empty := mkBuffers [] [] [] [] in
  voxelFaceMap Sample.world1 !! (0, -1, 0) = Some (Sample.n 0) /\
  uvs (findFaces Sample.faces Sample.world1 voxel empty)
  = voxel_uvs Sample.faces Sample.world1 voxel (Sample.n 0).
Proof.
  intros voxel empty.
  assert (voxelFaceMap Sample.world1 !! (0, -1, 0) = Some (Sample.n 0)) as Htile
      by (vm_compute; reflexivity).
  split; [exact Htile|].
  apply (findFaces_uv_coordinates Sample.noise_x Sample.faces (Sample.loadVoxelChunk 2) 4
           Sample.floorMultiple 8 Sample.octrees_get Sample.world1 voxel (Sample.n 0) empty
           Htile).
Defined.

(** * Further properties *)

(** ** The columns of a chunk *)

Lemma elem_of_chunk_columns (size x z xc zc : Z) :
  (xc, zc) ∈ chunk_columns size x z <-> (x <= xc < x + size /\ z <= zc < z + size).
Proof.
  unfold chunk_columns. rewrite list_elem_of_bind. split.
  - intros (i & (k & Hc & Hk)%list_elem_of_bind & Hi).
    apply list_elem_of_singleton in Hc as [= -> ->].
    apply elem_of_seqZ in Hk, Hi. lia.
  - intros [Hx Hz]. exists (zc - z). split; [|apply elem_of_seqZ; lia].
    apply list_elem_of_bind. exists (xc - x). split; [|apply elem_of_seqZ; lia].
    apply list_elem_of_singleton. f_equal; lia.
Qed.

Lemma NoDup_chunk_columns (size x z : Z) : NoDup (chunk_columns size x z).
Proof.
  unfold chunk_columns. apply NoDup_bind; [| |apply NoDup_seqZ].
  - intros i1 i2 c _ _ (k1 & Hc1 & _)%list_elem_of_bind (k2 & Hc2 & _)%list_elem_of_bind.
    apply list_elem_of_singleton in Hc1, Hc2. subst c. injection Hc2. lia.
  - intros i _. apply NoDup_bind; [| |apply NoDup_seqZ].
    + intros k1 k2 c _ _ Hc1 Hc2.
      apply list_elem_of_singleton in Hc1, Hc2. subst c. injection Hc2. lia.
    + intros k _. apply NoDup_singleton.
Qed.

Lemma length_bind_const {A B} (f : A -> list B) (l : list A) (n : nat) :
  (forall a, length (f a) = n) -> length (l ≫= f) = (length l * n)%nat.
Proof.
  intros Hf. induction l as [|a l IH]; [done|].
  rewrite bind_cons, length_app, Hf, IH. simpl. lia.
Qed.

Lemma length_chunk_columns (size x z : Z) :
  length (chunk_columns size x z) = (Z.to_nat size * Z.to_nat size)%nat.
Proof.
  unfold chunk_columns.
  rewrite (length_bind_const _ _ (Z.to_nat size)), length_seqZ; [done|].
  intros i. rewrite (length_bind_const _ _ 1%nat), length_seqZ; [lia|done].
Qed.

Section Columns.
Context {num : Type} `{JsNumber num}.
Variable getCoord : num -> num -> num.
Variable faces : list (Face num).
Variable loadVoxelChunk : Z -> list (num * Z).
Variable capacity : nat.

(** X1.  [loopChunk(x, y, f)] calls [f] once for every column of the square
    [x <= xc < x + CHUNK_SIZE], [y <= yc < y + CHUNK_SIZE], row by row ([yc]
    outer, [xc] inner, both ascending), and for no other column: that is
    [CHUNK_SIZE * CHUNK_SIZE] calls, none for a chunk size of 0 or less. *)
Theorem loopChunk_visits_square (w : VoxelWorld num) (x y : Z) :
  (forall (S : Type) (f : Z -> Z -> S -> S) (s : S),
      loopChunk w x y f s
      = fold_left (fun s c => f c.1 c.2 s) (chunk_columns (CHUNK_SIZE w) x y) s) /\
  (forall xc yc,
      (xc, yc) ∈ chunk_columns (CHUNK_SIZE w) x y
      <-> x <= xc < x + CHUNK_SIZE w /\ y <= yc < y + CHUNK_SIZE w) /\
  NoDup (chunk_columns (CHUNK_SIZE w) x y) /\
  length (chunk_columns (CHUNK_SIZE w) x y)
  = (Z.to_nat (CHUNK_SIZE w) * Z.to_nat (CHUNK_SIZE w))%nat.
Proof.
  split; [|split; [|split]].
  - intros S f s. unfold loopChunk, chunk_columns.
    rewrite fold_left_bind. apply fold_left_pointwise. intros s' i.
    rewrite fold_left_bind. by apply fold_left_pointwise.
  - intros xc yc. apply elem_of_chunk_columns.
  - apply NoDup_chunk_columns.
  - apply length_chunk_columns.
Qed.

(** X2.  The chunks tile the plane.  For a positive chunk size the columns
    [loadChunk(chunkX, chunkZ)] visits are exactly those whose coordinates,
    floor-divided by the chunk size, give [(chunkX, chunkZ)]: every column
    belongs to one chunk and no two chunks share a column. *)
Theorem chunk_columns_tile (w : VoxelWorld num) (chunkX chunkZ : Z) (chunkY : option Z)
        (xc zc : Z) :
  0 < CHUNK_SIZE w ->
  let bounds := chunk_bounds w chunkX chunkZ chunkY in
  (xc, zc) ∈ chunk_columns (CHUNK_SIZE w) (Octree.x bounds) (Octree.z bounds)
  <-> chunkX = xc / CHUNK_SIZE w /\ chunkZ = zc / CHUNK_SIZE w.
Proof.
  intros Hsize bounds. unfold bounds, chunk_bounds. simpl.
  rewrite elem_of_chunk_columns.
  assert (forall c v, c * CHUNK_SIZE w <= v < c * CHUNK_SIZE w + CHUNK_SIZE w
                      <-> c = v / CHUNK_SIZE w) as Hdiv.
  { intros c v. split.
    - intros Hv. apply (Z.div_unique v (CHUNK_SIZE w) c (v - c * CHUNK_SIZE w)); lia.
    - intros ->. pose proof (Z.mul_div_le v (CHUNK_SIZE w) Hsize).
      pose proof (Z.mul_succ_div_gt v (CHUNK_SIZE w) Hsize). lia. }
  by rewrite !Hdiv.
Qed.

(** X3.  The voxels of a generation pass.  [loadChunk] places a voxel at
    [(x, y, z)] exactly when the column [(x, z)] lies in the chunk's square
    and the column-fill policy, called with the chunk's base y, calls
    [addBlock] with that [y]; the list handed to the mesher has one entry
    per call and column, so it is empty when the chunk size is 0 or less or
    the policy makes no call. *)
Theorem generate_places_policy_calls (w : VoxelWorld num) (chunkX chunkZ : Z)
        (chunkY : option Z) :
  let bounds := chunk_bounds w chunkX chunkZ chunkY in
  let voxels := (generate getCoord loadVoxelChunk capacity w chunkX chunkZ chunkY).2 in
  let calls := loadVoxelChunk (Octree.y bounds) in
  (forall p, p ∈ voxels
             <-> (Octree.x bounds <= xyz_x p < Octree.x bounds + CHUNK_SIZE w /\
                  Octree.z bounds <= xyz_z p < Octree.z bounds + CHUNK_SIZE w) /\
                 exists uv, (uv, xyz_y p) ∈ calls) /\
  length voxels = (Z.to_nat (CHUNK_SIZE w) * Z.to_nat (CHUNK_SIZE w) * length calls)%nat.
Proof.
  intros bounds voxels calls. unfold voxels. rewrite generate_closed_form.
  fold bounds. simpl. unfold chunk_voxels. fold calls. split.
  - intros p. rewrite list_elem_of_fmap. split.
    + intros ([p' uv] & -> & ([xc zc] & (call & He & Hcall)%list_elem_of_bind & Hc)%list_elem_of_bind).
      apply list_elem_of_singleton in He as [= -> ->]. simpl.
      apply elem_of_chunk_columns in Hc. split; [done|].
      exists call.1. by destruct call.
    + intros (Hcol & uv & Hcall). exists (p, uv). split; [done|].
      apply list_elem_of_bind. exists (xyz_x p, xyz_z p).
      split; [|by apply elem_of_chunk_columns].
      apply list_elem_of_bind. exists (uv, xyz_y p). split; [|done].
      apply list_elem_of_singleton. by destruct p.
  - rewrite length_fmap.
    rewrite (length_bind_const _ _ (length calls)), length_chunk_columns; [done|].
    intros c. rewrite (length_bind_const _ _ 1%nat); [apply Nat.mul_1_r|done].
Qed.

End Columns.

Lemma chunk_columns_tile_witness :
  (3, 2) ∈ chunk_columns 2 2 2 <-> 1 = 3 / 2 /\ 1 = 2 / 2.
Proof.
  apply (chunk_columns_tile Sample.world0 1 1 None 3 2).
  reflexivity.
Defined.

(** ** The voxel map after a generation pass *)

Section VoxelMap.
Context {num : Type} `{JsNumber num}.
Variable getCoord : num -> num -> num.
Variable faces : list (Face num).
Variable loadVoxelChunk : Z -> list (num * Z).
Variable capacity : nat.

Lemma elem_of_chunk_voxels (size x y z : Z) (p : XYZ) (uv : num) :
  (p, uv) ∈ chunk_voxels loadVoxelChunk size x y z
  <-> (xyz_x p, xyz_z p) ∈ chunk_columns size x z /\ (uv, xyz_y p) ∈ loadVoxelChunk y.
Proof.
  unfold chunk_voxels. rewrite list_elem_of_bind. split.
  - intros ([xc zc] & (call & He & Hcall)%list_elem_of_bind & Hc).
    apply list_elem_of_singleton in He as [= -> ->]. simpl. by destruct call.
  - intros [Hc Hcall]. exists (xyz_x p, xyz_z p). split; [|done].
    apply list_elem_of_bind. exists (uv, xyz_y p). split; [|done].
    apply list_elem_of_singleton. by destruct p.
Qed.

Lemma write_voxels_is_Some (m : gmap (Z * Z * Z) num) vs k :
  is_Some (m !! k) -> is_Some (write_voxels m vs !! k).
Proof.
  intros Hk. induction vs as [|e vs IH] using rev_ind; [done|].
  rewrite write_voxels_snoc. destruct (decide (voxel_key e = k)) as [->|Hne].
  - rewrite lookup_insert_eq. by eexists.
  - by rewrite lookup_insert_ne.
Qed.

(** X4.  [loadChunk] writes to the voxel map only inside its own columns and
    only at the heights its column-fill policy names: the entry of every
    other key is as it was before.  It never removes an entry: a voxel that
    was in the map is still in it afterwards. *)
Theorem loadChunk_keeps_other_voxels (w : VoxelWorld num) (chunkX chunkZ : Z)
        (chunkY : option Z) :
  let bounds := chunk_bounds w chunkX chunkZ chunkY in
  let after :=
    voxelFaceMap (loadChunk getCoord faces loadVoxelChunk capacity w chunkX chunkZ chunkY).1 in
  (forall x y z,
      ~ (Octree.x bounds <= x < Octree.x bounds + CHUNK_SIZE w /\
         Octree.z bounds <= z < Octree.z bounds + CHUNK_SIZE w) ->
      after !! (x, y, z) = voxelFaceMap w !! (x, y, z)) /\
  (forall x y z,
      (forall uv, (uv, y) ∉ loadVoxelChunk (Octree.y bounds)) ->
      after !! (x, y, z) = voxelFaceMap w !! (x, y, z)) /\
  (forall k, is_Some (voxelFaceMap w !! k) -> is_Some (after !! k)).
Proof.
  intros bounds after. unfold after. rewrite loadChunk_closed_form. fold bounds. simpl.
  split; [|split].
  - intros x y z Hout. apply write_voxels_lookup_other.
    apply Forall_forall. intros [p uv] [Hc _]%elem_of_chunk_voxels [= <- <- <-].
    by apply elem_of_chunk_columns in Hc.
  - intros x y z Hy. apply write_voxels_lookup_other.
    apply Forall_forall. intros [p uv] [_ Hcall]%elem_of_chunk_voxels [= <- <- <-].
    by apply (Hy uv).
  - intros k. apply write_voxels_is_Some.
Qed.

End VoxelMap.

(** ** The buffers of the mesher *)

Section Buffers.
Context {num : Type} `{JsNumber num}.
Variable faces : list (Face num).

Lemma length_corner_uvs (tile row wr hr : num) (cs : list (Corner num)) :
  length (flat_map (corner_uv tile row wr hr) cs) = (2 * length cs)%nat.
Proof. induction cs as [|p cs IH]; simpl; lia. Qed.

Lemma fold_face_step_indices (w : VoxelWorld num) voxel tile fs b :
  length (indices (fold_left (face_step w voxel tile) fs b))
  = (length (indices b) + 6 * length (filter (fun f => exposed w voxel f = true) fs))%nat.
Proof.
  revert b. induction fs as [|f fs IH]; intros b; simpl; [lia|].
  rewrite IH. destruct (exposed w voxel f) eqn:He.
  - rewrite filter_cons_True by done. rewrite face_step_exposed by done.
    simpl. rewrite length_app. simpl. lia.
  - rewrite filter_cons_False by (rewrite He; done).
    by rewrite face_step_unexposed.
Qed.

Lemma face_step_parallel (w : VoxelWorld num) voxel tile b f :
  length (normals b) = length (positions b) /\
  (3 * length (uvs b) = 2 * length (positions b))%nat ->
  length (normals (face_step w voxel tile b f))
  = length (positions (face_step w voxel tile b f)) /\
  (3 * length (uvs (face_step w voxel tile b f))
   = 2 * length (positions (face_step w voxel tile b f)))%nat.
Proof.
  intros [Hn Hu]. destruct (exposed w voxel f) eqn:He.
  - rewrite face_step_exposed by done. simpl.
    rewrite push_corners_positions, push_corners_normals, push_corners_uvs,
      length_app, length_corner_uvs. lia.
  - by rewrite face_step_unexposed.
Qed.

Lemma mesh_fold_parallel (w : VoxelWorld num) voxels b :
  length (normals b) = length (positions b) /\
  (3 * length (uvs b) = 2 * length (positions b))%nat ->
  let b' := fold_left (fun b pos => findFaces faces w pos b) voxels b in
  length (normals b') = length (positions b') /\
  (3 * length (uvs b') = 2 * length (positions b'))%nat.
Proof.
  intros Hb. simpl.
  apply (fold_left_preserves
           (fun b => length (normals b) = length (positions b) /\
                     (3 * length (uvs b) = 2 * length (positions b))%nat)); [done|].
  intros b0 v Hb0. unfold findFaces.
  apply (fold_left_preserves
           (fun b => length (normals b) = length (positions b) /\
                     (3 * length (uvs b) = 2 * length (positions b))%nat)); [done|].
  intros b1 f Hb1. by apply face_step_parallel.
Qed.

Lemma mesh_fold_indices (w : VoxelWorld num) voxels b :
  length (indices (fold_left (fun b pos => findFaces faces w pos b) voxels b))
  = (length (indices b) + 6 * exposed_faces faces w voxels)%nat.
Proof.
  revert b. unfold exposed_faces.
  induction voxels as [|v vs IH]; intros b; simpl; [lia|].
  rewrite IH. unfold findFaces. rewrite fold_face_step_indices. lia.
Qed.

(** X5.  The buffers stay parallel, whatever the face table: the mesher
    pushes three position and three normal components and two UV components
    per vertex, so the normal array is as long as the position array, the UV
    array two thirds of it, the position array holds whole vertices, and the
    index array holds six indices per exposed face. *)
Theorem mesh_buffers_parallel (w : VoxelWorld num) (voxels : list XYZ) :
  let b := mesh_buffers faces w voxels in
  length (normals b) = length (positions b) /\
  (3 * length (uvs b) = 2 * length (positions b))%nat /\
  (exists vertices, length (positions b) = (3 * vertices)%nat) /\
  length (indices b) = (6 * exposed_faces faces w voxels)%nat.
Proof.
  intros b. unfold b.
  split; [|split; [|split; [apply mesh_buffers_triples|]]].
  - apply (mesh_fold_parallel w voxels (mkBuffers [] [] [] [])). done.
  - apply (mesh_fold_parallel w voxels (mkBuffers [] [] [] [])). done.
  - unfold mesh_buffers. by rewrite mesh_fold_indices.
Qed.

(** The buffers hold [q] whole quads: the positions of [4q] vertices and the
    indices of the quads [0 .. q - 1]. *)
Lemma fold_face_step_quads (w : VoxelWorld num) voxel tile fs b (q : nat) :
  Forall (fun f => length (corners f) = 4%nat) fs ->
  length (positions b) = (12 * q)%nat ->
  indices b = flat_map quad_indices (seq 0 q) ->
  let b' := fold_left (face_step w voxel tile) fs b in
  let q' := (q + length (filter (fun f => exposed w voxel f = true) fs))%nat in
  length (positions b') = (12 * q')%nat /\
  indices b' = flat_map quad_indices (seq 0 q').
Proof.
  intros Hfs. revert b q. induction Hfs as [|f fs Hf Hfs IH]; intros b q Hp Hi; simpl.
  - by rewrite Nat.add_0_r.
  - destruct (exposed w voxel f) eqn:He.
    + rewrite filter_cons_True by done. rewrite face_step_exposed by done. simpl.
      destruct (IH (let b' := fold_left (push_corner w voxel tile (dir f) (uvRow f))
                                        (corners f) b in
                    let ndx := Z.of_nat (length (positions b)) / 3 in
                    mkBuffers (positions b') (normals b')
                      (indices b ++ [ndx; ndx + 1; ndx + 2; ndx + 2; ndx + 1; ndx + 3])
                      (uvs b')) (S q)) as (Hp' & Hi').
      * simpl. rewrite push_corners_positions, Hp, Hf. lia.
      * cbn [indices]. rewrite seq_S, flat_map_app, Hi, Hp. cbn [flat_map].
        rewrite app_nil_r, Nat.add_0_l. unfold quad_indices at 3.
        replace (Z.of_nat (12 * q) / 3) with (4 * Z.of_nat q); [done|].
        apply (Z.div_unique _ 3 _ 0); lia.
      * simpl in *. replace (q + S (length (filter _ fs)))%nat
          with (S q + length (filter (fun f => exposed w voxel f = true) fs))%nat by lia.
        done.
    + rewrite filter_cons_False by (rewrite He; done).
      rewrite face_step_unexposed by done. by apply IH.
Qed.

(** X6.  The index array of a mesh.  With four corners per face, the [k]-th
    exposed face of the pass (counting from 0) gets the six indices
    [4k, 4k+1, 4k+2, 4k+2, 4k+1, 4k+3]: two triangles over the four vertices
    pushed for that face.  Every index refers to a vertex of the position
    array. *)
Theorem mesh_buffers_indices (w : VoxelWorld num) (voxels : list XYZ) :
  Forall (fun f => length (corners f) = 4%nat) faces ->
  let b := mesh_buffers faces w voxels in
  indices b = flat_map quad_indices (seq 0 (exposed_faces faces w voxels)) /\
  Forall (fun i => 0 <= i < Z.of_nat (vertex_count b)) (indices b).
Proof.
  intros Hfs b.
  assert (forall vs b0 q,
             length (positions b0) = (12 * q)%nat ->
             indices b0 = flat_map quad_indices (seq 0 q) ->
             let b1 := fold_left (fun b pos => findFaces faces w pos b) vs b0 in
             length (positions b1) = (12 * (q + exposed_faces faces w vs))%nat /\
             indices b1 = flat_map quad_indices (seq 0 (q + exposed_faces faces w vs)))
    as Hfold.
  { induction vs as [|v vs IH]; intros b0 q Hp Hi; simpl.
    - unfold exposed_faces. simpl. by rewrite Nat.add_0_r.
    - destruct (fold_face_step_quads w v
                  (default nan (CoordinateMap3D_get (voxelFaceMap w)
                                  (xyz_x v) (xyz_y v) (xyz_z v)))
                  faces b0 q Hfs Hp Hi) as (Hp' & Hi').
      destruct (IH _ _ Hp' Hi') as (Hp'' & Hi'').
      unfold exposed_faces in *. simpl.
      replace (q + (length (filter (fun f => exposed w v f = true) faces)
                    + sum_list (map (fun v0 => length (filter (fun f => exposed w v0 f = true)
                                                         faces)) vs)))%nat
        with (q + length (filter (fun f => exposed w v f = true) faces)
              + sum_list (map (fun v0 => length (filter (fun f => exposed w v0 f = true)
                                                   faces)) vs))%nat by lia.
      done. }
  destruct (Hfold voxels (mkBuffers [] [] [] []) 0%nat eq_refl eq_refl) as (Hp & Hi).
  fold (mesh_buffers faces w voxels) in Hp, Hi. fold b in Hp, Hi.
  rewrite Nat.add_0_l in Hp, Hi.
  split; [done|].
  assert (vertex_count b = (4 * exposed_faces faces w voxels)%nat) as ->.
  { unfold vertex_count. rewrite Hp. symmetry. apply (Nat.div_unique _ 3 _ 0); lia. }
  rewrite Hi.
  apply Forall_forall. intros i (k & Hk & Hi')%OctreeFacts.elem_of_flat_map.
  apply elem_of_seq in Hk. unfold quad_indices in Hi'.
  repeat (apply elem_of_cons in Hi' as [->|Hi']); try lia.
  by apply elem_of_nil in Hi'.
Qed.

(** X7.  A voxel with a neighbour in every direction of the face table adds
    nothing to the buffers. *)
Theorem findFaces_enclosed_voxel (w : VoxelWorld num) (voxel : XYZ) (b : MeshBuffers num) :
  (forall f, f ∈ faces ->
             is_Some (voxelFaceMap w !! (xyz_x voxel + (dir f).1.1,
                                         xyz_y voxel + (dir f).1.2,
                                         xyz_z voxel + (dir f).2))) ->
  findFaces faces w voxel b = b.
Proof.
  intros Hall. unfold findFaces.
  generalize (default nan (CoordinateMap3D_get (voxelFaceMap w)
                             (xyz_x voxel) (xyz_y voxel) (xyz_z voxel))).
  intros tile. induction faces as [|f fs IH]; [done|].
  simpl. rewrite face_step_unexposed.
  - apply IH. intros f' Hf'. apply Hall. by right.
  - unfold exposed, CoordinateMap3D_get.
    destruct (Hall f) as [t ->]; [by left|done].
Qed.

Lemma fold_face_step_vertices (w : VoxelWorld num) voxel tile fs b :
  let b' := fold_left (face_step w voxel tile) fs b in
  positions b' = positions b ++ voxel_positions fs w voxel /\
  normals b' = normals b ++ voxel_normals fs w voxel.
Proof.
  revert b. induction fs as [|f fs IH]; intros b; simpl.
  - by rewrite !app_nil_r.
  - destruct (IH (face_step w voxel tile b f)) as (-> & ->).
    unfold voxel_positions, voxel_normals. simpl.
    destruct (exposed w voxel f) eqn:He.
    + rewrite face_step_exposed by done. simpl. rewrite !app_assoc.
      split; f_equal.
      * clear. generalize (corners f). intros cs. revert b.
        induction cs as [|p cs IHcs]; intros b; simpl; [by rewrite app_nil_r|].
        rewrite IHcs. simpl. by rewrite <- app_assoc.
      * clear. generalize (corners f), (dir f). intros cs d. revert b.
        induction cs as [|p cs IHcs]; intros b; simpl; [by rewrite app_nil_r|].
        rewrite IHcs. simpl. by rewrite <- app_assoc.
    + by rewrite face_step_unexposed.
Qed.

(** X8.  The vertices of a mesh.  For each voxel of the list in order, each
    exposed face in the order of the table and each corner of the face in
    order, the position array holds the voxel's position plus the corner's
    offset, and the normal array the direction of the face. *)
Theorem mesh_buffers_vertices (w : VoxelWorld num) (voxels : list XYZ) :
  (forall voxel b,
      positions (findFaces faces w voxel b) = positions b ++ voxel_positions faces w voxel /\
      normals (findFaces faces w voxel b) = normals b ++ voxel_normals faces w voxel) /\
  positions (mesh_buffers faces w voxels) = flat_map (voxel_positions faces w) voxels /\
  normals (mesh_buffers faces w voxels) = flat_map (voxel_normals faces w) voxels.
Proof.
  assert (forall voxel b,
             positions (findFaces faces w voxel b)
             = positions b ++ voxel_positions faces w voxel /\
             normals (findFaces faces w voxel b)
             = normals b ++ voxel_normals faces w voxel) as Hone.
  { intros voxel b. unfold findFaces. apply fold_face_step_vertices. }
  split; [exact Hone|].
  unfold mesh_buffers.
  assert (forall vs b0,
             let b1 := fold_left (fun b pos => findFaces faces w pos b) vs b0 in
             positions b1 = positions b0 ++ flat_map (voxel_positions faces w) vs /\
             normals b1 = normals b0 ++ flat_map (voxel_normals faces w) vs) as Hfold.
  { induction vs as [|v vs IH]; intros b0; simpl; [by rewrite !app_nil_r|].
    destruct (IH (findFaces faces w v b0)) as (-> & ->).
    destruct (Hone v b0) as (-> & ->). by rewrite <- !app_assoc. }
  apply (Hfold voxels (mkBuffers [] [] [] [])).
Qed.

End Buffers.

Lemma mesh_buffers_indices_witness :
  let b := mesh_buffers Sample.faces Sample.stacked Sample.stacked_voxels in
  Forall (fun i => 0 <= i < Z.of_nat (vertex_count b)) (indices b).
Proof.
  intros b.
  assert (Forall (fun f => length (corners f) = 4%nat) Sample.faces) as Hfaces
      by (repeat constructor).
  destruct (mesh_buffers_indices Sample.faces Sample.stacked Sample.stacked_voxels Hfaces)
    as [_ Hrange].
  exact Hrange.
Defined.

Lemma findFaces_enclosed_voxel_witness :
  findFaces Sample.faces Sample.enclosed (mkXYZ 0 0 0) (mkBuffers [] [] [] [])
  = mkBuffers [] [] [] [].
Proof.
  apply (findFaces_enclosed_voxel Sample.faces Sample.enclosed (mkXYZ 0 0 0)).
  intros f Hf.
  repeat (apply elem_of_cons in Hf as [->|Hf]; [vm_compute; by eexists|]).
  by apply elem_of_nil in Hf.
Defined.

(** ** The tick counter *)

Section Tick.
Context {num : Type} `{JsNumber num}.
Implicit Types (g : Game num).

Lemma chunkRenderLoop_counter g :
  chunkRenderLoop g
  = mkGame (world g) (camera_x g) (camera_z g) (octrees g)
           (next_counter (counter g)) (renderDistance g).
Proof. unfold chunkRenderLoop, next_counter. by destruct (counter g <=? 0). Qed.

Lemma chunkRenderLoop_iter_counter (n : nat) g :
  Nat.iter n chunkRenderLoop g
  = mkGame (world g) (camera_x g) (camera_z g) (octrees g)
           (Nat.iter n next_counter (counter g)) (renderDistance g).
Proof.
  induction n as [|n IH]; [by destruct g|].
  simpl. by rewrite IH, chunkRenderLoop_counter.
Qed.

Lemma next_counter_down (k : nat) (c : Z) :
  Z.of_nat k <= c -> Nat.iter k next_counter c = c - Z.of_nat k.
Proof.
  induction k as [|k IH]; intros Hk; [simpl; lia|].
  rewrite Nat.iter_succ, IH by lia. unfold next_counter.
  destruct (Z.leb_spec (c - Z.of_nat k) 0); lia.
Qed.

Lemma next_counter_range (n : nat) (c : Z) :
  0 <= c <= counterOg -> 0 <= Nat.iter n next_counter c <= counterOg.
Proof.
  intros Hc. induction n as [|n IH]; [done|].
  rewrite Nat.iter_succ. set (x := Nat.iter n next_counter c) in *.
  unfold next_counter, counterOg in *.
  destruct (Z.leb_spec x 0); lia.
Qed.

Lemma next_counter_period (c : Z) :
  0 <= c <= counterOg -> Nat.iter 51 next_counter c = c.
Proof.
  intros Hc. unfold counterOg in Hc.
  replace 51%nat with (Z.to_nat (50 - c) + S (Z.to_nat c))%nat by lia.
  rewrite Nat.iter_add, Nat.iter_succ.
  rewrite (next_counter_down (Z.to_nat c) c) by lia.
  replace (c - Z.of_nat (Z.to_nat c)) with 0 by lia.
  change (next_counter 0) with 50.
  rewrite next_counter_down by lia. lia.
Qed.

(** X9.  The tick counter.  Starting from a counter between 0 and
    [counterOg] = 50, every call of the tick lowers the counter by one until
    it is 0; the call that finds it at 0 takes the branch of the periodic
    work and sets it back to 50.  The counter never leaves the range 0..50,
    and 51 calls bring the game back to where it was: the periodic branch is
    taken on one call in 51. *)
Theorem chunkRenderLoop_period g :
  0 <= counter g <= counterOg ->
  (forall k : nat, Z.of_nat k <= counter g ->
                   counter (Nat.iter k chunkRenderLoop g) = counter g - Z.of_nat k) /\
  counter (Nat.iter (S (Z.to_nat (counter g))) chunkRenderLoop g) = counterOg /\
  (forall n : nat, 0 <= counter (Nat.iter n chunkRenderLoop g) <= counterOg) /\
  Nat.iter 51 chunkRenderLoop g = g.
Proof.
  intros Hc. split; [|split; [|split]].
  - intros k Hk. rewrite chunkRenderLoop_iter_counter. simpl.
    by apply next_counter_down.
  - rewrite Nat.iter_succ, chunkRenderLoop_counter, chunkRenderLoop_iter_counter. simpl.
    rewrite next_counter_down by lia.
    replace (counter g - Z.of_nat (Z.to_nat (counter g))) with 0 by lia. done.
  - intros n. rewrite chunkRenderLoop_iter_counter. simpl.
    by apply next_counter_range.
  - rewrite chunkRenderLoop_iter_counter, next_counter_period by done. by destruct g.
Qed.

End Tick.

Lemma chunkRenderLoop_period_witness :
  0 <= counter (Sample.game 0 0 7) <= counterOg /\
  Nat.iter 51 chunkRenderLoop (Sample.game 0 0 7) = Sample.game 0 0 7.
Proof.
  assert (0 <= counter (Sample.game 0 0 7) <= counterOg) as Hc
      by (cbv [Sample.game counter counterOg]; lia).
  split; [exact Hc|].
  destruct (chunkRenderLoop_period (Sample.game 0 0 7) Hc) as (_ & _ & _ & Hperiod).
  exact Hperiod.
Defined.

(** ** The radius of the unload step *)

Section Radius.
Context {num : Type} `{JsNumber num}.
Variable floorMultiple : num -> num -> num.
Variable CHUNK_SIZE_main : Z.

(** X10.  When the viewer coordinate lies inside the window of every loaded
    chunk (or no store exists yet), [deleteIfOutRadius] returns the game as
    it is: nothing leaves the store, nothing is removed from the scene. *)
Theorem deleteIfOutRadius_inside_radius (r : Z) (g : Game num) :
  (forall map c,
      octrees g = Some map -> is_Some (map !! c) ->
      out_of_radius (viewer_coordinate floorMultiple CHUNK_SIZE_main (camera_x g))
                    (viewer_coordinate floorMultiple CHUNK_SIZE_main (camera_z g))
                    (r + 1) c = false) ->
  deleteIfOutRadius floorMultiple CHUNK_SIZE_main r g = g.
Proof.
  intros Hin. unfold deleteIfOutRadius.
  destruct (octrees g) as [map|] eqn:Hmap; [|done].
  apply delete_fold_id. intros c Hc. by apply (Hin map).
Qed.

End Radius.

Lemma deleteIfOutRadius_inside_radius_witness :
  deleteIfOutRadius Sample.floorMultiple 8 1 (Sample.game 8 0 0) = Sample.game 8 0 0.
Proof.
  apply (deleteIfOutRadius_inside_radius Sample.floorMultiple 8 1 (Sample.game 8 0 0)).
  intros map c Hmap [chunk Hc].
  assert (octrees (Sample.game 8 0 0) = Some {[ (0, 0) := Sample.loaded8.2 ]}) as Ho
      by reflexivity.
  rewrite Ho in Hmap. apply (inj Some) in Hmap. rewrite <- Hmap in Hc.
  apply lookup_singleton_Some in Hc as [<- _].
  cbn [camera_x camera_z Sample.game]. vm_compute. reflexivity.
Defined.

(** In exact arithmetic, comparisons of whole numbers are those of [Z]. *)
Lemma QNum_lt_whole (a b : Z) : nlt (Sample.n a) (Sample.n b) = (a <? b).
Proof.
  simpl. unfold Qle_bool. simpl. rewrite !Z.mul_1_r. apply eq_sym, Z.ltb_antisym.
Qed.

Lemma QNum_ge_whole (a b : Z) : nge (Sample.n a) (Sample.n b) = (b <=? a).
Proof. simpl. unfold Qle_bool. simpl. by rewrite !Z.mul_1_r. Qed.

Lemma out_of_radius_whole (a b r cx cy : Z) :
  out_of_radius (Sample.n a) (Sample.n b) r (cx, cy) = false
  <-> cx <= a < cx + r /\ cy <= b < cy + r.
Proof.
  unfold out_of_radius. cbn [fst snd].
  change (of_Z cx) with (Sample.n cx). change (of_Z cy) with (Sample.n cy).
  change (of_Z (cx + r)) with (Sample.n (cx + r)).
  change (of_Z (cy + r)) with (Sample.n (cy + r)).
  rewrite !QNum_lt_whole, !QNum_ge_whole, !orb_false_iff.
  rewrite !Z.ltb_ge, !Z.leb_gt. lia.
Qed.

Section ExactRadius.
Variable floorMultiple : QNum.t -> QNum.t -> QNum.t.
Variable CHUNK_SIZE_main : Z.

Lemma deleteIfOutRadius_loaded_whole (r a b : Z) (g : Game QNum.t) (c : Z * Z) :
  viewer_coordinate floorMultiple CHUNK_SIZE_main (camera_x g) = Sample.n a ->
  viewer_coordinate floorMultiple CHUNK_SIZE_main (camera_z g) = Sample.n b ->
  loaded (deleteIfOutRadius floorMultiple CHUNK_SIZE_main r g) c
  <-> loaded g c /\ (c.1 <= a < c.1 + (r + 1) /\ c.2 <= b < c.2 + (r + 1)).
Proof.
  intros Hx Hz. destruct c as [cx cy]. rewrite <- out_of_radius_whole.
  destruct (octrees g) as [map|] eqn:Hmap.
  - destruct (deleteIfOutRadius_spec floorMultiple CHUNK_SIZE_main r g map Hmap)
      as (map' & s & -> & Hstore & _).
    rewrite Hx, Hz in Hstore. unfold loaded. simpl. rewrite Hmap. split.
    + intros (m & chunk & [= <-] & Hc). rewrite Hstore in Hc.
      destruct (out_of_radius _ _ _ _).
      * rewrite andb_true_r in Hc. case_bool_decide as Hd; [done|].
        destruct Hd. by exists chunk.
      * rewrite andb_false_r in Hc. split; [|done]. by exists map, chunk.
    + intros ((m & chunk & [= <-] & Hc) & Hout). exists map', chunk.
      split; [done|]. by rewrite Hstore, Hout, andb_false_r.
  - assert (deleteIfOutRadius floorMultiple CHUNK_SIZE_main r g = g) as ->
        by (unfold deleteIfOutRadius; by rewrite Hmap).
    unfold loaded. rewrite Hmap. split; [by intros (? & ? & ? & _)|].
    by intros [(? & ? & ? & _) _].
Qed.

(** X11.  The window of the unload step in exact arithmetic.  With the
    viewer at the whole chunk coordinate [(a, b)], a chunk [(cx, cy)] is
    loaded after [deleteIfOutRadius(r)] exactly when it was loaded before
    and [a - r <= cx <= a] and [b - r <= cy <= b]: the chunks that stay are
    those at most [r] chunks below the viewer on each axis. *)
Theorem deleteIfOutRadius_window (r a b : Z) (g : Game QNum.t) (cx cy : Z) :
  viewer_coordinate floorMultiple CHUNK_SIZE_main (camera_x g) = Sample.n a ->
  viewer_coordinate floorMultiple CHUNK_SIZE_main (camera_z g) = Sample.n b ->
  loaded (deleteIfOutRadius floorMultiple CHUNK_SIZE_main r g) (cx, cy)
  <-> loaded g (cx, cy) /\ (a - r <= cx <= a /\ b - r <= cy <= b).
Proof.
  intros Hx Hz. rewrite (deleteIfOutRadius_loaded_whole r a b g (cx, cy) Hx Hz).
  simpl. split; intros [Hl Hw]; (split; [done|lia]).
Qed.

(** X12.  The windows of the two steps point in opposite directions.
    [addInRadius(r)] walks the coordinates [(a + i, b + j)] with
    [0 <= i, j < r], at and above the viewer; [deleteIfOutRadius] keeps
    chunks at and below the viewer only.  So whatever the radius, after
    [deleteIfOutRadius] no chunk above the viewer on either axis is loaded:
    of the coordinates [addInRadius] walks, only the viewer's own can
    stay. *)
Theorem deleteIfOutRadius_drops_chunks_above (r a b : Z) (g : Game QNum.t) (i j : Z) :
  viewer_coordinate floorMultiple CHUNK_SIZE_main (camera_x g) = Sample.n a ->
  viewer_coordinate floorMultiple CHUNK_SIZE_main (camera_z g) = Sample.n b ->
  0 < i \/ 0 < j ->
  ~ loaded (deleteIfOutRadius floorMultiple CHUNK_SIZE_main r g) (a + i, b + j).
Proof.
  intros Hx Hz Hij Hl.
  apply (deleteIfOutRadius_loaded_whole r a b g (a + i, b + j) Hx Hz) in Hl.
  simpl in Hl. lia.
Qed.

End ExactRadius.

Lemma deleteIfOutRadius_window_witness :
  loaded (deleteIfOutRadius Sample.floorMultiple 8 1 (Sample.game 8 0 0)) (0, 0)
  <-> loaded (Sample.game 8 0 0) (0, 0) /\ (1 - 1 <= 0 <= 1 /\ 0 - 1 <= 0 <= 0).
Proof.
  assert (viewer_coordinate Sample.floorMultiple 8 (camera_x (Sample.game 8 0 0))
          = Sample.n 1) as Hx by (cbn [camera_x Sample.game]; vm_compute; reflexivity).
  assert (viewer_coordinate Sample.floorMultiple 8 (camera_z (Sample.game 8 0 0))
          = Sample.n 0) as Hz by (cbn [camera_z Sample.game]; vm_compute; reflexivity).
  exact (deleteIfOutRadius_window Sample.floorMultiple 8 1 1 0 (Sample.game 8 0 0) 0 0
           Hx Hz).
Defined.

Lemma deleteIfOutRadius_drops_chunks_above_witness :
  (0 < 1 \/ 0 < 0) /\
  ~ loaded (deleteIfOutRadius Sample.floorMultiple 8 2 (Sample.game 0 0 0)) (0 + 1, 0 + 0).
Proof.
  assert (viewer_coordinate Sample.floorMultiple 8 (camera_x (Sample.game 0 0 0))
          = Sample.n 0) as Hx by (cbn [camera_x Sample.game]; vm_compute; reflexivity).
  assert (viewer_coordinate Sample.floorMultiple 8 (camera_z (Sample.game 0 0 0))
          = Sample.n 0) as Hz by (cbn [camera_z Sample.game]; vm_compute; reflexivity).
  assert (0 < 1 \/ 0 < 0) as Hij by (left; lia).
  split; [exact Hij|].
  exact (deleteIfOutRadius_drops_chunks_above Sample.floorMultiple 8 2 0 0
           (Sample.game 0 0 0) 1 0 Hx Hz Hij).
Defined.

(** ** The elevation in exact arithmetic *)

Lemma QNum_round_half (x : Z) :
  nround (ndiv (Sample.n x) (Sample.n 2)) = Sample.n ((x + 1) / 2).
Proof.
  change (nround (ndiv (Sample.n x) (Sample.n 2)))
    with (Some (inject_Z (Qfloor (Qred (inject_Z x / inject_Z 2) + (1 # 2))))).
  unfold Sample.n. cbn [of_Z QNum.number]. f_equal. f_equal.
  transitivity (Qfloor ((x + 1) # 2)); [|reflexivity].
  apply Qfloor_comp. rewrite Qred_correct.
  unfold Qeq, Qdiv, Qmult, Qinv, Qplus. simpl. lia.
Qed.

(** X13.  The sample point of the elevation.  [getElevation(x, y)] reads the
    noise at [(round(x / 2), round(y / 2))]; for whole [x] that is
    [floor((x + 1) / 2)], so the four columns [2a - 1 <= x <= 2a],
    [2b - 1 <= y <= 2b] read the noise at [(a, b)] and have one elevation:
    the terrain is constant on squares of two by two columns. *)
Theorem getElevation_sample_cell (getCoord : QNum.t -> QNum.t -> QNum.t) (a b : Z) :
  (forall x y : Z,
      getElevation getCoord (Sample.n x) (Sample.n y)
      = ndiv (nround (nmul (ndiv (getCoord (Sample.n ((x + 1) / 2)) (Sample.n ((y + 1) / 2)))
                                 (of_Z 2))
                           (of_Z 10)))
             (of_Z 10)) /\
  getElevation getCoord (Sample.n (2 * a - 1)) (Sample.n (2 * b - 1))
  = getElevation getCoord (Sample.n (2 * a)) (Sample.n (2 * b)) /\
  getElevation getCoord (Sample.n (2 * a - 1)) (Sample.n (2 * b))
  = getElevation getCoord (Sample.n (2 * a)) (Sample.n (2 * b)) /\
  getElevation getCoord (Sample.n (2 * a)) (Sample.n (2 * b - 1))
  = getElevation getCoord (Sample.n (2 * a)) (Sample.n (2 * b)).
Proof.
  assert (forall x y : Z,
             getElevation getCoord (Sample.n x) (Sample.n y)
             = ndiv (nround (nmul (ndiv (getCoord (Sample.n ((x + 1) / 2))
                                                  (Sample.n ((y + 1) / 2)))
                                        (of_Z 2))
                                  (of_Z 10)))
                    (of_Z 10)) as Hpoint.
  { intros x y. unfold getElevation.
    change (@of_Z QNum.t _ 2) with (Sample.n 2). by rewrite !QNum_round_half. }
  split; [exact Hpoint|].
  rewrite !Hpoint.
  replace ((2 * a - 1 + 1) / 2) with a by (apply (Z.div_unique _ 2 _ 0); lia).
  replace ((2 * b - 1 + 1) / 2) with b by (apply (Z.div_unique _ 2 _ 0); lia).
  replace ((2 * a + 1) / 2) with a by (apply (Z.div_unique _ 2 _ 1); lia).
  replace ((2 * b + 1) / 2) with b by (apply (Z.div_unique _ 2 _ 1); lia).
  done.
Qed.

(** X14.  The range of the elevation.  Where the noise at the sample point
    is a number between -1 and 1, [getElevation] is a whole number of tenths
    between -0.5 and 0.5: the surface stays within half a block of its mean
    height. *)
Theorem getElevation_range (getCoord : QNum.t -> QNum.t -> QNum.t) (x y : QNum.t) (q : Q) :
  getCoord (nround (ndiv x (of_Z 2))) (nround (ndiv y (of_Z 2))) = Some q ->
  (-1 <= q <= 1)%Q ->
  exists k : Z, -5 <= k <= 5 /\ getElevation getCoord x y = ndiv (of_Z k) (of_Z 10).
Proof.
  intros Hq [Hlo Hhi]. unfold getElevation. rewrite Hq.
  exists (Qfloor (Qred (Qred (q / inject_Z 2) * inject_Z 10) + (1 # 2))).
  split; [|reflexivity].
  assert (Qred (Qred (q / inject_Z 2) * inject_Z 10) + (1 # 2) == 5 * q + (1 # 2))%Q as Hv.
  { rewrite !Qred_correct. field. }
  rewrite (Qfloor_comp _ _ Hv).
  split.
  - apply (Qfloor_resp_le (- (9 # 2))). clear Hv Hq. lra.
  - apply (Qfloor_resp_le _ (11 # 2)). clear Hv Hq. lra.
Qed.

Lemma getElevation_range_witness :
  exists k : Z, -5 <= k <= 5 /\
    getElevation (Sample.noise_flat 1) (Sample.n 3) (Sample.n 4) = ndiv (of_Z k) (of_Z 10).
Proof.
  apply (getElevation_range (Sample.noise_flat 1) (Sample.n 3) (Sample.n 4) 1).
  - reflexivity.
  - split; discriminate.
Defined.

(** ** The first-generation world *)

Section FirstWorld.
Context {num : Type} `{JsNumber num}.
Variable getCoord : num -> num -> num.
Variable Tree : Type.
Variable Tree_new : num * num * num * (num * num * num) -> Tree.
Variable Tree_insert : Tree -> num * num * num * (num * num * num) -> Tree.

Lemma add_blocks_bookkeeping (st : World.State Tree) (xc yc : Z) :
  let st' := World.add_blocks getCoord Tree Tree_insert st xc yc in
  exists new,
    length new = 2%nat /\
    World.blocks st' = World.blocks st ++ new /\
    World.tree st' = fold_left Tree_insert (block_box <$> new) (World.tree st) /\
    children (World.scene st') = children (World.scene st) ++ (BlockObject <$> new) /\
    block_id <$> new = seq (next_id (World.scene st)) 2 /\
    next_id (World.scene st') = (next_id (World.scene st) + 2)%nat.
Proof.
  simpl. unfold World.add_blocks, World.newBlock_at, World.add_block. simpl.
  eexists [_; _]. split; [done|]. split; [by rewrite <- app_assoc|].
  split; [done|]. split; [by rewrite <- app_assoc|]. split; [done|]. lia.
Qed.

Lemma visit_bookkeeping (columns : list (Z * Z)) (st : World.State Tree) :
  let st' := World.visit getCoord Tree Tree_insert columns st in
  exists new,
    length new = (2 * length columns)%nat /\
    World.blocks st' = World.blocks st ++ new /\
    World.tree st' = fold_left Tree_insert (block_box <$> new) (World.tree st) /\
    children (World.scene st') = children (World.scene st) ++ (BlockObject <$> new) /\
    block_id <$> new = seq (next_id (World.scene st)) (length new) /\
    next_id (World.scene st') = (next_id (World.scene st) + length new)%nat.
Proof.
  revert st. induction columns as [|c cs IH]; intros st.
  - exists []. simpl. rewrite !app_nil_r. repeat split; lia.
  - unfold World.visit in *. cbn [fold_left].
    destruct (add_blocks_bookkeeping st c.1 c.2) as (new1 & Hl1 & Hb1 & Ht1 & Hs1 & Hi1 & Hn1).
    set (st1 := World.add_blocks getCoord Tree Tree_insert st c.1 c.2) in *.
    destruct (IH st1) as (new2 & Hl2 & Hb2 & Ht2 & Hs2 & Hi2 & Hn2).
    cbv zeta. exists (new1 ++ new2).
    rewrite Hb2, Ht2, Hs2, Hn2, Hb1, Ht1, Hs1.
    rewrite Hn1 in Hi2 |- *.
    rewrite !fmap_app, fold_left_app, length_app, seq_app, Hi1, Hi2, Hl1, <- !app_assoc.
    cbn [length]. repeat split; lia.
Qed.

(** X15.  [generateWorld] keeps its three records in step.  It builds eight
    blocks (grass and stone for each of the four columns); the list it
    returns, the objects it adds to the scene and the unit boxes it inserts
    into the tree are these eight blocks in the same order, and the objects
    that were in the scene before stay in front of them. *)
Theorem generateWorld_bookkeeping (scene : Scene num) :
  let st := World.generateWorld getCoord Tree Tree_new Tree_insert scene in
  length (World.blocks st) = 8%nat /\
  World.tree st
  = fold_left Tree_insert (block_box <$> World.blocks st)
      (Tree_new ((of_Z 0, of_Z (-7), of_Z 0), (of_Z 2, of_Z 5, of_Z 2))) /\
  children (World.scene st) = children scene ++ (BlockObject <$> World.blocks st) /\
  block_id <$> World.blocks st = seq (next_id scene) 8 /\
  next_id (World.scene st) = (next_id scene + 8)%nat.
Proof.
  intros st. unfold st, World.generateWorld.
  destruct (visit_bookkeeping World.columns
              (World.mkState Tree
                 (Tree_new ((of_Z 0, of_Z (-7), of_Z 0),
                            (of_Z World.CHUNK_SIZE, of_Z 5, of_Z World.CHUNK_SIZE)))
                 [] scene))
    as (new & Hl & Hb & Ht & Hs & Hi & Hn).
  cbn [World.blocks World.tree World.scene app] in Hb, Ht, Hs, Hi, Hn.
  change (length World.columns) with 4%nat in Hl.
  rewrite Hb, Ht, Hs, Hn, Hi, Hl. done.
Qed.

End FirstWorld.

(** ** Object ids and the scene *)

Section SceneIds.
Context {num : Type} `{JsNumber num}.

(** Objects made from the counter of a well-formed scene and added behind
    its children leave it well formed. *)
Lemma scene_wf_extend (s : Scene num) (new : list (Object3D num)) :
  scene_wf s ->
  object_id <$> new = seq (next_id s) (length new) ->
  scene_wf (mkScene (children s ++ new) (next_id s + length new)).
Proof.
  intros [Hnd Hlt] Hnew. rewrite Forall_forall in Hlt. split; simpl.
  - rewrite fmap_app, Hnew. apply NoDup_app. split; [done|]. split; [|apply NoDup_seq].
    intros id (o & -> & Ho)%list_elem_of_fmap Hid%elem_of_seq.
    specialize (Hlt o Ho). lia.
  - apply Forall_app. split.
    + apply Forall_forall. intros o Ho. specialize (Hlt o Ho). lia.
    + apply Forall_forall. intros o Ho.
      assert (object_id o ∈ seq (next_id s) (length new)) as Hid%elem_of_seq; [|lia].
      rewrite <- Hnew. by apply list_elem_of_fmap_2.
Qed.

Lemma scene_wf_snoc (s : Scene num) (o : Object3D num) :
  scene_wf s -> object_id o = next_id s ->
  scene_wf (mkScene (children s ++ [o]) (S (next_id s))).
Proof.
  intros Hs Ho.
  replace (S (next_id s)) with (next_id s + length [o])%nat by (simpl; lia).
  apply scene_wf_extend; [done|]. simpl. by rewrite Ho.
Qed.

Lemma scene_wf_sublist (s s' : Scene num) :
  scene_wf s -> children s' `sublist_of` children s -> next_id s' = next_id s ->
  scene_wf s'.
Proof.
  intros [Hnd Hlt] Hsub Hid. split.
  - eapply sublist_NoDup; [exact Hnd|]. by apply fmap_sublist.
  - rewrite Forall_forall in Hlt. apply Forall_forall. intros o Ho. rewrite Hid.
    apply Hlt. eapply elem_of_sublist; [exact Ho|done].
Qed.

Lemma sublist_same_length {A} (l k : list A) :
  l `sublist_of` k -> (length k <= length l)%nat -> l = k.
Proof.
  induction 1 as [|x l k Hsub IH|x l k Hsub IH]; simpl; intros Hlen; [done| |].
  - f_equal. apply IH. lia.
  - apply sublist_length in Hsub. lia.
Qed.

(** A sublist of [l ++ [x]] that holds every element of [l] and not [x]
    is [l]. *)
Lemma sublist_all_but_last {A} (l k : list A) (x : A) :
  NoDup l -> k `sublist_of` l ++ [x] -> x ∉ k -> (forall y, y ∈ l -> y ∈ k) -> k = l.
Proof.
  intros Hnd (k1 & k2 & -> & Hk1 & Hk2)%sublist_app_r Hx Hall.
  assert (k2 = []) as ->.
  { destruct k2 as [|y k2]; [done|]. exfalso.
    assert (y = x) as ->.
    { apply list_elem_of_singleton. eapply elem_of_sublist; [|exact Hk2]. by left. }
    apply Hx. apply elem_of_app. right. by left. }
  rewrite app_nil_r in *. apply sublist_same_length; [done|].
  apply submseteq_length. by apply NoDup_submseteq.
Qed.

Variable getCoord : num -> num -> num.
Variable faces : list (Face num).
Variable loadVoxelChunk : Z -> list (num * Z).
Variable capacity : nat.
Variable floorMultiple : num -> num -> num.
Variable CHUNK_SIZE_main : Z.

(** X16.  Object ids stay distinct.  If the ids of the objects of the scene
    are pairwise distinct and below the id counter, they are so again after
    the constructor (which adds its light), after [loadChunk] (which adds
    the mesh of the chunk), after [deleteIfOutRadius] and the tick, and
    after [generateWorld] (which adds its blocks): every object the code
    adds is a new one, so the [scene.remove] of the unload step never takes
    out an object other than the mesh it is given. *)
Theorem scene_ids_distinct :
  (forall o : VoxelContructorOpts num,
      scene_wf (opt_scene o) -> scene_wf (scene (constructor o))) /\
  (forall (w : VoxelWorld num) chunkX chunkZ chunkY,
      scene_wf (scene w) ->
      scene_wf (scene (loadChunk getCoord faces loadVoxelChunk capacity w
                         chunkX chunkZ chunkY).1)) /\
  (forall (r : Z) (g : Game num),
      scene_wf (scene (world g)) ->
      scene_wf (scene (world (deleteIfOutRadius floorMultiple CHUNK_SIZE_main r g)))) /\
  (forall g : Game num,
      scene_wf (scene (world g)) -> scene_wf (scene (world (chunkRenderLoop g)))) /\
  (forall (Tree : Type) Tree_new Tree_insert (sc : Scene num),
      scene_wf sc ->
      scene_wf (World.scene (World.generateWorld getCoord Tree Tree_new Tree_insert sc))).
Proof.
  split; [|split; [|split; [|split]]].
  - intros o Hwf.
    exact (scene_wf_snoc (opt_scene o) (AmbientLight (next_id (opt_scene o)) 4210752 50)
             Hwf eq_refl).
  - intros w chunkX chunkZ chunkY Hwf. rewrite loadChunk_closed_form.
    cbn [fst scene set_scene]. by apply (scene_wf_snoc (scene w)).
  - intros r g Hwf. destruct (octrees g) as [map|] eqn:Hmap.
    + destruct (deleteIfOutRadius_spec floorMultiple CHUNK_SIZE_main r g map Hmap)
        as (map' & s & -> & _ & Hid & Hsub & _).
      cbn [world with_store_scene set_scene scene].
      by apply (scene_wf_sublist (scene (world g))).
    + unfold deleteIfOutRadius. by rewrite Hmap.
  - intros g Hwf. unfold chunkRenderLoop. by destruct (counter g <=? 0).
  - intros Tree Tree_new Tree_insert sc Hwf. unfold World.generateWorld.
    destruct (visit_bookkeeping getCoord Tree Tree_insert World.columns
                (World.mkState Tree
                   (Tree_new ((of_Z 0, of_Z (-7), of_Z 0),
                              (of_Z World.CHUNK_SIZE, of_Z 5, of_Z World.CHUNK_SIZE)))
                   [] sc))
      as (new & _ & _ & _ & Hs & Hi & Hn).
    cbn [World.scene] in Hs, Hi, Hn.
    pose proof (scene_wf_extend sc (BlockObject <$> new) Hwf) as Hext.
    rewrite length_fmap, <- list_fmap_compose in Hext. specialize (Hext Hi).
    destruct Hext as [Hnd Hlt]. cbn [children next_id] in Hnd, Hlt.
    split; [by rewrite Hs|by rewrite Hs, Hn].
Qed.

(** X17.  Loading a chunk and unloading it again.  Let [loadChunk] run on a
    world whose scene has distinct object ids, let its result be stored
    under a free key [c], and let [deleteIfOutRadius] run with the viewer
    outside the window of [c] and inside the window of every other stored
    chunk.  Then the store and the children of the scene are what they were
    before the chunk was loaded; what stays of the load is the advanced id
    counter and the voxel map of the world. *)
Theorem loadChunk_deleteIfOutRadius_round_trip
        (w : VoxelWorld num) (chunkX chunkZ : Z) (chunkY : option Z)
        (cam_x cam_z : num) (map : gmap (Z * Z) (ChunkData num)) (c : Z * Z)
        (count distance r : Z) :
  scene_wf (scene w) ->
  map !! c = None ->
  (forall k, is_Some (map !! k) ->
             out_of_radius (viewer_coordinate floorMultiple CHUNK_SIZE_main cam_x)
                           (viewer_coordinate floorMultiple CHUNK_SIZE_main cam_z)
                           (r + 1) k = false) ->
  out_of_radius (viewer_coordinate floorMultiple CHUNK_SIZE_main cam_x)
                (viewer_coordinate floorMultiple CHUNK_SIZE_main cam_z)
                (r + 1) c = true ->
  let chunk := loadChunk getCoord faces loadVoxelChunk capacity w chunkX chunkZ chunkY in
  deleteIfOutRadius floorMultiple CHUNK_SIZE_main r
    (mkGame chunk.1 cam_x cam_z (Some (<[c := chunk.2]> map)) count distance)
  = mkGame (set_scene chunk.1 (mkScene (children (scene w)) (S (next_id (scene w)))))
           cam_x cam_z (Some map) count distance.
Proof.
  intros Hwf Hfree Hin Hout chunk.
  set (g := mkGame chunk.1 cam_x cam_z (Some (<[c := chunk.2]> map)) count distance).
  assert (exists mesh,
             mesh_id mesh = next_id (scene w) /\
             blocks chunk.2 = [mesh] /\
             scene chunk.1
             = mkScene (children (scene w) ++ [MeshObject mesh]) (S (next_id (scene w))))
    as (mesh & Hmesh & Hblocks & Hscene).
  { unfold chunk. rewrite loadChunk_closed_form. eexists. by repeat split. }
  destruct (deleteIfOutRadius_spec floorMultiple CHUNK_SIZE_main r g (<[c := chunk.2]> map)
              eq_refl)
    as (map' & s & -> & Hstore & Hid & Hsub & Hkeep & Hrem).
  cbn [g camera_x camera_z world] in Hstore, Hid, Hsub, Hkeep, Hrem.
  rewrite Hscene in Hid, Hsub, Hkeep, Hrem. cbn [children next_id] in Hid, Hsub, Hkeep, Hrem.
  destruct Hwf as [Hnd Hlt]. rewrite Forall_forall in Hlt.
  assert (map' = map) as ->.
  { apply map_eq. intros k. rewrite Hstore.
    destruct (decide (k = c)) as [->|Hne].
    - rewrite lookup_insert_eq, Hout, Hfree.
      by rewrite bool_decide_eq_true_2 by (by eexists).
    - rewrite lookup_insert_ne by done. case_bool_decide as Hk; [|done].
      by rewrite (Hin k Hk). }
  assert (children s = children (scene w)) as Hchildren.
  { apply (sublist_all_but_last _ _ (MeshObject mesh)).
    - by apply NoDup_fmap_1 in Hnd.
    - done.
    - intros Hm. apply (Hrem) with (k := c) (chunk := chunk.2) (b := mesh) in Hm.
      + by apply Hm.
      + rewrite fmap_app. apply NoDup_app. split; [done|]. split; [|apply NoDup_singleton].
        intros id (o & -> & Ho)%list_elem_of_fmap Hid'%list_elem_of_singleton.
        specialize (Hlt o Ho). simpl in Hid'. lia.
      + by rewrite lookup_insert_eq.
      + done.
      + rewrite Hblocks. by left.
    - intros o Ho. apply Hkeep; [apply elem_of_app; by left|].
      intros k chunk' b Hk Hko Hb.
      destruct (decide (k = c)) as [->|Hne].
      + rewrite lookup_insert_eq in Hk. injection Hk as <-.
        rewrite Hblocks in Hb. apply list_elem_of_singleton in Hb as ->.
        specialize (Hlt o Ho). lia.
      + rewrite lookup_insert_ne in Hk by done.
        rewrite (Hin k) in Hko by (by eexists). done. }
  unfold with_store_scene. cbn [g world camera_x camera_z counter renderDistance].
  f_equal. f_equal. destruct s as [cs nid]. simpl in *. by subst.
Qed.

End SceneIds.

Lemma scene_ids_distinct_witness :
  scene_wf (scene (loadChunk Sample.noise_x Sample.faces (Sample.loadVoxelChunk 2) 4
                     (constructor Sample.opts) 0 0 None).1).
Proof.
  destruct (scene_ids_distinct Sample.noise_x Sample.faces (Sample.loadVoxelChunk 2) 4
              Sample.floorMultiple 8) as (Hconstructor & HloadChunk & _).
  apply HloadChunk, Hconstructor. split; constructor.
Defined.

Lemma loadChunk_deleteIfOutRadius_round_trip_witness :
  let chunk :=
    loadChunk Sample.noise_x Sample.faces (Sample.loadVoxelChunk 2) 4 Sample.world0 0 0 None in
  deleteIfOutRadius Sample.floorMultiple 8 1
    (mkGame chunk.1 (Sample.n 24) (Sample.n 24) (Some (<[(0, 0) := chunk.2]> ∅)) 0 1)
  = mkGame (set_scene chunk.1 (mkScene (children (scene Sample.world0))
                                       (S (next_id (scene Sample.world0)))))
           (Sample.n 24) (Sample.n 24) (Some ∅) 0 1.
Proof.
  assert (scene_wf (scene Sample.world0)) as Hwf.
  { split; vm_compute; [apply NoDup_singleton|repeat constructor]. }
  assert ((∅ : gmap (Z * Z) (ChunkData QNum.t)) !! (0, 0) = None) as Hfree
      by apply lookup_empty.
  assert (forall k, is_Some ((∅ : gmap (Z * Z) (ChunkData QNum.t)) !! k) ->
                    out_of_radius (viewer_coordinate Sample.floorMultiple 8 (Sample.n 24))
                                  (viewer_coordinate Sample.floorMultiple 8 (Sample.n 24))
                                  (1 + 1) k = false) as Hin.
  { intros k [chunk Hk]. by rewrite lookup_empty in Hk. }
  assert (out_of_radius (viewer_coordinate Sample.floorMultiple 8 (Sample.n 24))
                        (viewer_coordinate Sample.floorMultiple 8 (Sample.n 24))
                        (1 + 1) (0, 0) = true) as Hout by (vm_compute; reflexivity).
  exact (loadChunk_deleteIfOutRadius_round_trip
           Sample.noise_x Sample.faces (Sample.loadVoxelChunk 2) 4 Sample.floorMultiple 8
           Sample.world0 0 0 None (Sample.n 24) (Sample.n 24) ∅ (0, 0) 0 1 1
           Hwf Hfree Hin Hout).
Defined.

(** ** The mesh and the state of the map *)

Section Seams.
Context {num : Type} `{JsNumber num}.
Variable faces : list (Face num).
Variable loadVoxelChunk : Z -> list (num * Z).
Variable capacity : nat.

Lemma length_filter_mono {A} (P Q : A -> Prop) `{!forall x, Decision (P x)}
      `{!forall x, Decision (Q x)} (l : list A) :
  (forall x, P x -> Q x) -> (length (filter P l) <= length (filter Q l))%nat.
Proof.
  intros HPQ. induction l as [|x l IH]; [done|].
  destruct (decide (P x)) as [HP|HP].
  - rewrite (filter_cons_True P) by done. rewrite (filter_cons_True Q) by auto.
    simpl. lia.
  - rewrite (filter_cons_False P) by done. destruct (decide (Q x)).
    + rewrite (filter_cons_True Q) by done. simpl. lia.
    + by rewrite (filter_cons_False Q).
Qed.

Lemma exposed_weaken (w w' : VoxelWorld num) (voxel : XYZ) (f : Face num) :
  voxelFaceMap w ⊆ voxelFaceMap w' ->
  exposed w' voxel f = true -> exposed w voxel f = true.
Proof.
  intros Hsub. unfold exposed, CoordinateMap3D_get.
  destruct (voxelFaceMap w' !! _) eqn:Hw'; [done|].
  by rewrite (lookup_weaken_None _ _ _ Hw' Hsub).
Qed.

(** X18.  Voxels in the map only take faces away.  Meshing the same voxels
    against a map that holds everything another map holds, and more, gives
    no face the other map does not give: the index array is at most as
    long.  A chunk meshed after its neighbour is loaded has no faces on the
    seam between them, and a chunk meshed before keeps the faces it got. *)
Theorem mesh_buffers_fewer_faces (w w' : VoxelWorld num) (voxels : list XYZ) :
  voxelFaceMap w ⊆ voxelFaceMap w' ->
  (forall voxel f, exposed w' voxel f = true -> exposed w voxel f = true) /\
  (exposed_faces faces w' voxels <= exposed_faces faces w voxels)%nat /\
  (length (indices (mesh_buffers faces w' voxels))
   <= length (indices (mesh_buffers faces w voxels)))%nat.
Proof.
  intros Hsub.
  assert (exposed_faces faces w' voxels <= exposed_faces faces w voxels)%nat as Hfaces.
  { unfold exposed_faces. induction voxels as [|v vs IH]; simpl; [done|].
    pose proof (length_filter_mono (fun f => exposed w' v f = true)
                                   (fun f => exposed w v f = true) faces
                                   (fun f => exposed_weaken w w' v f Hsub)).
    lia. }
  split; [intros voxel f; by apply exposed_weaken|]. split; [done|].
  unfold mesh_buffers. rewrite !mesh_fold_indices. simpl. lia.
Qed.

Variable getCoord getCoord' : num -> num -> num.

(** X19.  The noise field has no part in [loadChunk].  [loadVoxel] computes
    the elevation of its column and does not use it; the heights of the
    voxels are those the column-fill policy names.  So [loadChunk] builds
    the same world and the same chunk whatever the noise field is. *)
Theorem loadChunk_ignores_noise (w : VoxelWorld num) (chunkX chunkZ : Z)
        (chunkY : option Z) :
  loadChunk getCoord faces loadVoxelChunk capacity w chunkX chunkZ chunkY
  = loadChunk getCoord' faces loadVoxelChunk capacity w chunkX chunkZ chunkY.
Proof. by rewrite !loadChunk_closed_form. Qed.

End Seams.

Lemma mesh_buffers_fewer_faces_witness :
  let w' := set_voxelFaceMap Sample.stacked
              (<[(1, 0, 0) := Sample.n 0]> (voxelFaceMap Sample.stacked)) in
  (length (indices (mesh_buffers Sample.faces w' Sample.stacked_voxels))
   <= length (indices (mesh_buffers Sample.faces Sample.stacked Sample.stacked_voxels)))%nat.
Proof.
  intros w'.
  assert (voxelFaceMap Sample.stacked ⊆ voxelFaceMap w') as Hsub.
  { apply insert_subseteq. vm_compute. reflexivity. }
  destruct (mesh_buffers_fewer_faces Sample.faces Sample.stacked w' Sample.stacked_voxels Hsub)
    as (_ & _ & Hindices).
  exact Hindices.
Defined.
